(** * Batch adapter iterator of [src/io/iter_batch.h]

    A shallow embedding of [mxnet::io::BatchAdaptIter], the iterator that
    packs the instances of a base [IIterator<DataInst>] into dense batches
    of [batch_size] rows, and the properties of its [BeforeFirst] / [Next] /
    [Value] state machine.

    Conventions of the embedding:
    - [index_t] and [unsigned] are 32-bit unsigned integers, [int] is a 32-bit
      signed integer; all are carried as [Z] and every arithmetic operation
      of the source is followed by its wrap-around ([to_index_t], [to_int]);
    - a tensor of [float] is a list of rows; the element type [real] is kept
      abstract, since the iterator only copies rows ([mshadow::Copy]);
    - the object's mutable members are the fields of a record that is
      threaded through every member function;
    - [CHECK] failures, writes past the end of a buffer and exhausted loop
      fuel are explicit results next to the normal return. *)

From Stdlib Require Import ZArith String Lia Bool.
From stdpp Require Import base list.

Local Open Scope Z_scope.

(** ** Machine integers *)

(** [mshadow::index_t] / [unsigned]: reduction modulo 2^32. *)
Definition to_index_t (x : Z) : Z := x mod 2 ^ 32.

(** [int]: two's-complement reduction to [-2^31, 2^31). *)
Definition to_int (x : Z) : Z := (x + 2 ^ 31) mod 2 ^ 32 - 2 ^ 31.

(** ** Results of a member function *)

Inductive result (A : Type) : Type :=
| Return (a : A)             (* the function returned [a] *)
| CheckFailed (msg : string) (* a [CHECK(...)] failed: fatal error *)
| OutOfBounds                (* a row was written past the end of a buffer *)
| OutOfFuel.                 (* the loop bound of the embedding was hit *)

Arguments Return {A} a.
Arguments CheckFailed {A} msg.
Arguments OutOfBounds {A}.
Arguments OutOfFuel {A}.

(** ** The data types of [mxnet/io.h] used by the iterator *)

Module DataInst.
(** Modelled from the spec: [DataInst] is declared in [mxnet/io.h], which
    is not among the sources.  A sample has an integer index identifying
    its position in the original source, a data tensor and a label tensor;
    [Next] reads them as [d.index], [d.data[0]] and [d.data[1]]. *)
Record t (real : Type) : Type := mk { index : Z; data : list (list real) }.
Arguments mk {real} index data.
Arguments index {real} _.
Arguments data {real} _.

(** [d.data[k].get<cpu, dim, float>()] *)
Definition get {real} (d : t real) (k : nat) : list real :=
  default [] (data d !! k).
End DataInst.

(** Modelled from the spec: [TBlob] is declared in [mxnet/base.h], which is
    not among the sources.  A blob is a zero-copy view over a buffer held
    elsewhere.  The only tensors the batch iterator ever wraps are its own
    two dense buffers, so a blob is either empty (default constructed, as
    [out_.data.resize(2)] leaves it) or an alias of one of them. *)
Inductive TBlob : Type :=
| TBlob_empty
| TBlob_data    (* [TBlob(data)]  *)
| TBlob_label.  (* [TBlob(label)] *)

Module DataBatch.
(** Modelled from the spec: [DataBatch] is declared in [mxnet/io.h], which
    is not among the sources.  A batch has a padding count, an array of
    per-slot source indices, its data and label tensors (here the blobs
    [data[0]] and [data[1]]) and its size; these are the four members the
    iterator assigns. *)
Record t : Type := mk {
  num_batch_padd : Z;       (* mshadow::index_t *)
  inst_index : list Z;      (* unsigned *, owned by the batch *)
  data : list TBlob;        (* std::vector<TBlob> *)
  batch_size : Z            (* mshadow::index_t *)
}.

Definition set_num_batch_padd (v : Z) (b : t) : t :=
  mk v (inst_index b) (data b) (batch_size b).
Definition set_inst_index (v : list Z) (b : t) : t :=
  mk (num_batch_padd b) v (data b) (batch_size b).
Definition set_data (v : list TBlob) (b : t) : t :=
  mk (num_batch_padd b) (inst_index b) v (batch_size b).
Definition set_batch_size (v : Z) (b : t) : t :=
  mk (num_batch_padd b) (inst_index b) (data b) v.
End DataBatch.

(** ** The iterator interface [IIterator<DType>] *)

Module IIterator.
(** Modelled from the spec: [IIterator] is declared in [mxnet/io.h], which
    is not among the sources.  The contract has four operations:
    initialise from a configuration, restart, advance (false means
    exhausted), and the current value, valid after a successful advance.
    [S] is the state of the object behind the pointer. *)
Class t (DType S : Type) : Type := {
  Init : list (string * string) → S → S;
  BeforeFirst : S → S;
  Next : S → bool * S;
  Value : S → DType
}.
End IIterator.

(** ** Batch parameters *)

Module BatchParam.
Record t : Type := mk {
  batch_size : Z;            (* index_t *)
  input_shape : list Z;      (* TShape *)
  label_width : Z;           (* index_t *)
  round_batch : bool;
  test_skipread : bool;
  silent : bool
}.
End BatchParam.

(** ** A base iterator over a finite data set *)

Module ListIter.
(** Modelled from the spec: the per-sample Source is an external
    collaborator (an [IIterator<DataInst>] whose implementations are not
    part of [iter_batch.h]).  Following its contract, [BeforeFirst] resets
    iteration to the beginning of the data set, [Next] advances to the
    next sample and answers [false] once the data set is exhausted, and
    [Value] is the sample reached by the last successful [Next]. *)
Record t (real : Type) : Type := mk {
  dataset : list (DataInst.t real);
  cursor : nat;               (* number of samples handed out this pass *)
  blank : DataInst.t real     (* what [Value] denotes before any [Next] *)
}.
Arguments mk {real} dataset cursor blank.
Arguments dataset {real} _.
Arguments cursor {real} _.
Arguments blank {real} _.

Definition set_cursor {real} (c : nat) (s : t real) : t real :=
  mk (dataset s) c (blank s).

Definition Init {real} (kwargs : list (string * string)) (s : t real) : t real := s.

Definition BeforeFirst {real} (s : t real) : t real := set_cursor 0 s.

Definition Next {real} (s : t real) : bool * t real :=
  if decide (cursor s < length (dataset s))%nat
  then (true, set_cursor (S (cursor s)) s)
  else (false, s).

Definition Value {real} (s : t real) : DataInst.t real :=
  match cursor s with
  | O => blank s
  | S i => default (blank s) (dataset s !! i)
  end.

#[global] Instance iterator {real} : IIterator.t (DataInst.t real) (t real) :=
  {| IIterator.Init := Init;
     IIterator.BeforeFirst := BeforeFirst;
     IIterator.Next := Next;
     IIterator.Value := Value |}.
End ListIter.

(** ** The batch adapter *)

Module BatchAdaptIter.
Section WithBase.
Context {real : Type} {Base : Type} `{!IIterator.t (DataInst.t real) Base}.

(** The data members of the class. *)
Record t : Type := mk {
  param_ : BatchParam.t;
  base_ : Base;                  (* IIterator<DataInst> *base_ *)
  out_ : DataBatch.t;
  head_ : Z;                     (* int *)
  num_overflow_ : Z;             (* int *)
  label : list (list real);      (* Tensor<cpu, 2>: one row per slot *)
  data : list (list real);       (* Tensor<cpu, 4>: one image per slot *)
  data_shape_ : list Z           (* Shape<4> *)
}.

Definition set_param (v : BatchParam.t) (it : t) : t :=
  mk v (base_ it) (out_ it) (head_ it) (num_overflow_ it) (label it) (data it) (data_shape_ it).
Definition set_base (v : Base) (it : t) : t :=
  mk (param_ it) v (out_ it) (head_ it) (num_overflow_ it) (label it) (data it) (data_shape_ it).
Definition set_out (v : DataBatch.t) (it : t) : t :=
  mk (param_ it) (base_ it) v (head_ it) (num_overflow_ it) (label it) (data it) (data_shape_ it).
Definition set_head (v : Z) (it : t) : t :=
  mk (param_ it) (base_ it) (out_ it) v (num_overflow_ it) (label it) (data it) (data_shape_ it).
Definition set_num_overflow (v : Z) (it : t) : t :=
  mk (param_ it) (base_ it) (out_ it) (head_ it) v (label it) (data it) (data_shape_ it).
Definition set_label (v : list (list real)) (it : t) : t :=
  mk (param_ it) (base_ it) (out_ it) (head_ it) (num_overflow_ it) v (data it) (data_shape_ it).
Definition set_data (v : list (list real)) (it : t) : t :=
  mk (param_ it) (base_ it) (out_ it) (head_ it) (num_overflow_ it) (label it) v (data_shape_ it).
Definition set_data_shape (v : list Z) (it : t) : t :=
  mk (param_ it) (base_ it) (out_ it) (head_ it) (num_overflow_ it) (label it) (data it) v.

(** [BatchAdaptIter(base)]: only [base_] and [num_overflow_] are
    initialised; what the other members hold until [Init] and
    [BeforeFirst] run is indeterminate and is supplied by the caller of
    the embedding. *)
Definition new (base : Base) (param0 : BatchParam.t) (out0 : DataBatch.t) (head0 : Z) : t :=
  mk param0 base out0 head0 0 [] [] [0; 0; 0; 0].

(** The rows a blob of the published batch aliases: reading a batch
    reads the iterator's buffers as they are at that moment. *)
Definition deref (it : t) (b : TBlob) : list (list real) :=
  match b with
  | TBlob_empty => []
  | TBlob_data => data it
  | TBlob_label => label it
  end.

(** [mshadow::NewTensor<cpu>(shape, 0.0f, pad)] with the leading
    dimension as rows and the remaining ones flattened. *)
Definition NewTensor (zero : real) (rows width : Z) : list (list real) :=
  replicate (Z.to_nat rows) (replicate (Z.to_nat width) zero).

(** [new unsigned[n]]: [n] cells of indeterminate content [junk]. *)
Definition new_unsigned (junk : nat → Z) (n : Z) : list Z :=
  junk <$> seq 0 (Z.to_nat n).

(** [std::vector::resize(n)] *)
Definition resize {A} (n : nat) (a : A) (l : list A) : list A :=
  take n l ++ replicate (n - length l) a.

Definition AllocSpaceDense (zero : real) (junk : nat → Z) (it : t) : t :=
  let shape i := default 0 (data_shape_ it !! i) in
  let it := set_data (NewTensor zero (shape 0%nat)
                        (shape 1%nat * shape 2%nat * shape 3%nat)) it in
  let bs := BatchParam.batch_size (param_ it) in
  let it := set_label (NewTensor zero bs (BatchParam.label_width (param_ it))) it in
  let it := set_out (DataBatch.set_inst_index (new_unsigned junk bs) (out_ it)) it in
  let it := set_out (DataBatch.set_batch_size bs (out_ it)) it in
  set_out (DataBatch.set_data (resize 2 TBlob_empty (DataBatch.data (out_ it))) (out_ it)) it.

(** [Init(kwargs)]; [p] is the value [param_.InitAllowUnknown(kwargs)]
    leaves in [param_]. *)
Definition Init (zero : real) (junk : nat → Z) (p : BatchParam.t)
    (kwargs : list (string * string)) (it : t) : t :=
  let it := set_param p it in
  let it := set_base (IIterator.Init kwargs (base_ it)) it in
  let dim i := default 0 (BatchParam.input_shape (param_ it) !! i) in
  let it := set_data_shape
              [BatchParam.batch_size (param_ it); dim 0%nat; dim 1%nat; dim 2%nat] it in
  AllocSpaceDense zero junk it.

Definition BeforeFirst (it : t) : t :=
  let it :=
    if negb (BatchParam.round_batch (param_ it)) || (num_overflow_ it =? 0)
    then set_base (IIterator.BeforeFirst (base_ it)) it
    else set_num_overflow 0 it in
  set_head 1 it.

(** The three statements that copy instance [d] into slot [top]:
    [Copy(label[top], d.data[1])], [out_.inst_index[top] = d.index] and
    [Copy(data[top], d.data[0])].  [None] when [top] is past the end of
    one of the three buffers. *)
Definition copy_inst (top : Z) (d : DataInst.t real) (it : t) : option t :=
  let i := Z.to_nat top in
  if decide (i < length (label it) ∧ i < length (DataBatch.inst_index (out_ it))
             ∧ i < length (data it))%nat
  then
    let it := set_label (<[i := DataInst.get d 1]> (label it)) it in
    let it := set_out (DataBatch.set_inst_index
                         (<[i := DataInst.index d]> (DataBatch.inst_index (out_ it)))
                         (out_ it)) it in
    Some (set_data (<[i := DataInst.get d 0]> (data it)) it)
  else None.

(** [out_.data[0] = TBlob(data); out_.data[1] = TBlob(label);] *)
Definition publish (it : t) : t :=
  set_out (DataBatch.set_data
             (<[1%nat := TBlob_label]> (<[0%nat := TBlob_data]> (DataBatch.data (out_ it))))
             (out_ it)) it.

(** Where control is after a loop: the function has returned (or
    stopped) from inside the loop, or the loop was left normally with the
    local [top]. *)
Inductive flow : Type :=
| Returned (r : result bool) (it : t)
| FellThrough (it : t) (top : Z).

(** [while (base_->Next()) { ...; if (++top >= batch_size) return true; }] *)
Fixpoint while_Next (fuel : nat) (it : t) (top : Z) : flow :=
  match fuel with
  | O => Returned OutOfFuel it
  | S fuel =>
    let '(more, b) := IIterator.Next (base_ it) in
    let it := set_base b it in
    if more then
      match copy_inst top (IIterator.Value b) it with
      | None => Returned OutOfBounds it
      | Some it =>
        let top := to_index_t (top + 1) in
        if BatchParam.batch_size (param_ it) <=? top
        then Returned (Return true) (publish it)
        else while_Next fuel it top
      end
    else FellThrough it top
  end.

(** [for (; top < batch_size; ++top, ++num_overflow_) { CHECK(base_->Next()); ... }] *)
Fixpoint for_refill (fuel : nat) (it : t) (top : Z) : flow :=
  match fuel with
  | O => Returned OutOfFuel it
  | S fuel =>
    if top <? BatchParam.batch_size (param_ it) then
      let '(more, b) := IIterator.Next (base_ it) in
      let it := set_base b it in
      if more then
        match copy_inst top (IIterator.Value b) it with
        | None => Returned OutOfBounds it
        | Some it =>
          for_refill fuel
            (set_num_overflow (to_int (num_overflow_ it + 1)) it)
            (to_index_t (top + 1))
        end
      else Returned (CheckFailed "number of input must be bigger than batch size") it
    else FellThrough it top
  end.

Definition Next_fuel (fuel : nat) (it : t) : result bool * t :=
  let it := set_out (DataBatch.set_num_batch_padd 0 (out_ it)) it in
  if BatchParam.test_skipread (param_ it) && (head_ it =? 0) then (Return true, it)
  else
    let it := set_head 0 it in
    if negb (num_overflow_ it =? 0) then (Return false, it)
    else
      match while_Next fuel it 0 with
      | Returned r it => (r, it)
      | FellThrough it top =>
        if negb (top =? 0) then
          if BatchParam.round_batch (param_ it) then
            let it := set_num_overflow 0 it in
            let it := set_base (IIterator.BeforeFirst (base_ it)) it in
            match for_refill fuel it top with
            | Returned r it => (r, it)
            | FellThrough it top =>
              (Return true,
               publish (set_out (DataBatch.set_num_batch_padd
                                   (to_index_t (num_overflow_ it)) (out_ it)) it))
            end
          else
            (Return true,
             publish (set_out (DataBatch.set_num_batch_padd
                                 (to_index_t (BatchParam.batch_size (param_ it) - top))
                                 (out_ it)) it))
        else (Return false, it)
      end.

(** Each loop runs its body at most [batch_size] times (once when
    [batch_size] is 0), and the [for] loop tests its condition once more. *)
Definition Next (it : t) : result bool * t :=
  Next_fuel (S (Z.to_nat (BatchParam.batch_size (param_ it)))) it.

Definition Value (it : t) : result DataBatch.t :=
  if head_ it =? 0 then Return (out_ it)
  else CheckFailed "must call Next to get value".

End WithBase.
Arguments t real Base : clear implicits.
End BatchAdaptIter.

(** ** Vocabulary of the specification *)

Section Spec.
Context {real : Type} {Base : Type} `{!IIterator.t (DataInst.t real) Base}.

Local Abbreviation iter := (BatchAdaptIter.t real Base).

(** [yields s ds s']: from state [s], [Next] succeeds [length ds] times
    in a row, [ds] are the instances [Value] shows after each, and the
    base iterator is left in state [s']. *)
Inductive yields : Base → list (DataInst.t real) → Base → Prop :=
| yields_nil s : yields s [] s
| yields_cons s s1 ds s2 :
    IIterator.Next s = (true, s1) →
    yields s1 ds s2 →
    yields s (IIterator.Value s1 :: ds) s2.

(** The buffers have the [batch_size] rows that [AllocSpaceDense] gives
    them, for a [batch_size] that is positive and fits [index_t]. *)
Definition allocated (it : iter) : Prop :=
  let bs := BatchParam.batch_size (BatchAdaptIter.param_ it) in
  0 < bs < 2 ^ 32
  ∧ length (BatchAdaptIter.label it) = Z.to_nat bs
  ∧ length (DataBatch.inst_index (BatchAdaptIter.out_ it)) = Z.to_nat bs
  ∧ length (BatchAdaptIter.data it) = Z.to_nat bs
  ∧ length (DataBatch.data (BatchAdaptIter.out_ it)) = 2%nat.

(** All three buffers have [n] rows. *)
Definition sized (n : nat) (it : iter) : Prop :=
  length (BatchAdaptIter.label it) = n
  ∧ length (DataBatch.inst_index (BatchAdaptIter.out_ it)) = n
  ∧ length (BatchAdaptIter.data it) = n.

(** [Next] will not take the [test_skipread] short cut. *)
Definition reads (it : iter) : Prop :=
  BatchParam.test_skipread (BatchAdaptIter.param_ it) = false
  ∨ BatchAdaptIter.head_ it ≠ 0.

(** What a consumer sees in slot [j] of the batch [Value] hands out:
    the cell of the index array and the rows of the two blobs, read
    through the aliases the batch holds. *)
Definition batch_blob (it : iter) (k : nat) : list (list real) :=
  BatchAdaptIter.deref it (default TBlob_empty (DataBatch.data (BatchAdaptIter.out_ it) !! k)).

Definition slot_index (it : iter) (j : nat) : option Z :=
  DataBatch.inst_index (BatchAdaptIter.out_ it) !! j.
Definition slot_data (it : iter) (j : nat) : option (list real) :=
  batch_blob it 0 !! j.
Definition slot_label (it : iter) (j : nat) : option (list real) :=
  batch_blob it 1 !! j.

(** Slot [j] of the batch holds instance [d]. *)
Definition slot_holds (it : iter) (j : nat) (d : DataInst.t real) : Prop :=
  slot_index it j = Some (DataInst.index d)
  ∧ slot_data it j = Some (DataInst.get d 0)
  ∧ slot_label it j = Some (DataInst.get d 1).

(** Row [j] of each of the three buffers holds instance [d]. *)
Definition slot_written (it : iter) (j : nat) (d : DataInst.t real) : Prop :=
  DataBatch.inst_index (BatchAdaptIter.out_ it) !! j = Some (DataInst.index d)
  ∧ BatchAdaptIter.data it !! j = Some (DataInst.get d 0)
  ∧ BatchAdaptIter.label it !! j = Some (DataInst.get d 1).

(** Slot [j] of the three buffers is the same in [it] and [it']. *)
Definition slot_kept (it it' : iter) (j : nat) : Prop :=
  DataBatch.inst_index (BatchAdaptIter.out_ it') !! j
    = DataBatch.inst_index (BatchAdaptIter.out_ it) !! j
  ∧ BatchAdaptIter.data it' !! j = BatchAdaptIter.data it !! j
  ∧ BatchAdaptIter.label it' !! j = BatchAdaptIter.label it !! j.

(** The three buffers are the same in [it] and [it']. *)
Definition buffers_kept (it it' : iter) : Prop :=
  BatchAdaptIter.label it' = BatchAdaptIter.label it
  ∧ DataBatch.inst_index (BatchAdaptIter.out_ it') = DataBatch.inst_index (BatchAdaptIter.out_ it)
  ∧ BatchAdaptIter.data it' = BatchAdaptIter.data it.

(** From [it] to [it'] nothing changed but the base iterator, the
    overflow counter and the contents of buffer rows: configuration,
    [head_], the batch's padding count, blobs and size, and the number of
    rows of every buffer are as before. *)
Definition steady (it it' : iter) : Prop :=
  BatchAdaptIter.param_ it' = BatchAdaptIter.param_ it
  ∧ BatchAdaptIter.head_ it' = BatchAdaptIter.head_ it
  ∧ BatchAdaptIter.data_shape_ it' = BatchAdaptIter.data_shape_ it
  ∧ DataBatch.num_batch_padd (BatchAdaptIter.out_ it')
    = DataBatch.num_batch_padd (BatchAdaptIter.out_ it)
  ∧ DataBatch.data (BatchAdaptIter.out_ it') = DataBatch.data (BatchAdaptIter.out_ it)
  ∧ DataBatch.batch_size (BatchAdaptIter.out_ it')
    = DataBatch.batch_size (BatchAdaptIter.out_ it)
  ∧ length (BatchAdaptIter.label it') = length (BatchAdaptIter.label it)
  ∧ length (DataBatch.inst_index (BatchAdaptIter.out_ it'))
    = length (DataBatch.inst_index (BatchAdaptIter.out_ it))
  ∧ length (BatchAdaptIter.data it') = length (BatchAdaptIter.data it).

(** The unconditional effect of the three copy statements on slot [i],
    and of copying a run of instances into consecutive slots. *)
Definition write_slot (i : nat) (d : DataInst.t real) (it : iter) : iter :=
  let it := BatchAdaptIter.set_label
              (<[i := DataInst.get d 1]> (BatchAdaptIter.label it)) it in
  let it := BatchAdaptIter.set_out
              (DataBatch.set_inst_index
                 (<[i := DataInst.index d]> (DataBatch.inst_index (BatchAdaptIter.out_ it)))
                 (BatchAdaptIter.out_ it)) it in
  BatchAdaptIter.set_data (<[i := DataInst.get d 0]> (BatchAdaptIter.data it)) it.


(** [out_.num_batch_padd = v] *)
Definition set_padd (v : Z) (it : iter) : iter :=
  BatchAdaptIter.set_out (DataBatch.set_num_batch_padd v (BatchAdaptIter.out_ it)) it.

(** The state in which [Next] reaches its loops: padding count and
    [head_] cleared. *)
Definition entered (it : iter) : iter := BatchAdaptIter.set_head 0 (set_padd 0 it).

(** The object as it is when control leaves a loop. *)
Definition flow_state (f : BatchAdaptIter.flow) : iter :=
  match f with
  | BatchAdaptIter.Returned _ it => it
  | BatchAdaptIter.FellThrough it _ => it
  end.

(** The same object configured with [test_skipread = b]. *)
Definition set_test_skipread (b : bool) (it : iter) : iter :=
  let p := BatchAdaptIter.param_ it in
  BatchAdaptIter.set_param
    (BatchParam.mk (BatchParam.batch_size p) (BatchParam.input_shape p)
       (BatchParam.label_width p) (BatchParam.round_batch p) b (BatchParam.silent p)) it.

(** [n] calls of [Next] in a row: the results, oldest first, and the
    final state. *)
Fixpoint Next_times (n : nat) (it : iter) : list (result bool) * iter :=
  match n with
  | O => ([], it)
  | S n =>
    let '(r, it1) := BatchAdaptIter.Next it in
    let '(rs, it2) := Next_times n it1 in
    (r :: rs, it2)
  end.

(** The states a client can drive the iterator into: [Init] on a newly
    constructed object, then any sequence of [BeforeFirst] and [Next]
    calls that came back (a [CHECK] failure ends the run). *)
Inductive reachable : iter → Prop :=
| reachable_Init zero junk p kwargs base param0 out0 head0 :
    reachable (BatchAdaptIter.Init zero junk p kwargs
                 (BatchAdaptIter.new base param0 out0 head0))
| reachable_BeforeFirst it :
    reachable it → reachable (BatchAdaptIter.BeforeFirst it)
| reachable_Next it b it' :
    reachable it → BatchAdaptIter.Next it = (Return b, it') → reachable it'.

End Spec.

(** ** Worked scenarios

    Data sets of [n] instances indexed [0 .. n-1] read through a
    [ListIter]; instance [i] has the one-pixel image [10 i] and the label
    [100 i].  The element type is [Z]. *)

Module Scenario.
Definition inst (i : Z) : DataInst.t Z := DataInst.mk i [[10 * i]; [100 * i]].

Definition samples (n : nat) : list (DataInst.t Z) :=
  (λ k, inst (Z.of_nat k)) <$> seq 0 n.

Definition source (n : nat) : ListIter.t Z := ListIter.mk (samples n) 0 (inst (-1)).

Definition config (bs : Z) (round skip : bool) : BatchParam.t :=
  BatchParam.mk bs [1; 1; 1] 1 round skip false.

(** A constructed and initialised iterator over [n] instances. *)
Definition fresh (n : nat) (bs : Z) (round skip : bool) : BatchAdaptIter.t Z (ListIter.t Z) :=
  BatchAdaptIter.Init 0 (λ _, 0) (config bs round skip) []
    (BatchAdaptIter.new (source n) (config 0 false false) (DataBatch.mk 0 [] [] 0) 1).

(** The object after a call of [Next]. *)
Definition after_Next (it : BatchAdaptIter.t Z (ListIter.t Z)) : BatchAdaptIter.t Z (ListIter.t Z) :=
  (BatchAdaptIter.Next it).2.

(** The start of the first epoch. *)
Definition epoch1 (n : nat) (bs : Z) (round skip : bool) : BatchAdaptIter.t Z (ListIter.t Z) :=
  BatchAdaptIter.BeforeFirst (fresh n bs round skip).
End Scenario.

(** ** Whole batches *)

Section SpecBatches.
Context {real : Type} {Base : Type} `{!IIterator.t (DataInst.t real) Base}.

Local Abbreviation iter := (BatchAdaptIter.t real Base).



End SpecBatches.

(** ** Machine arithmetic *)

Lemma to_index_t_small x : 0 ≤ x < 2 ^ 32 → to_index_t x = x.
Proof. intros Hx. unfold to_index_t. apply Z.mod_small. exact Hx. Qed.

Lemma to_int_succ x : to_int (to_int x + 1) = to_int (x + 1).
Proof.
  unfold to_int.
  replace ((x + 2 ^ 31) mod 2 ^ 32 - 2 ^ 31 + 1 + 2 ^ 31)
    with ((x + 2 ^ 31) mod 2 ^ 32 + 1) by lia.
  rewrite Zplus_mod_idemp_l. f_equal. f_equal. lia.
Qed.

Lemma to_index_t_to_int x : to_index_t (to_int x) = to_index_t x.
Proof.
  unfold to_index_t, to_int.
  rewrite Zminus_mod_idemp_l. f_equal. lia.
Qed.


Section Buffers.
Context {real : Type} {Base : Type} `{!IIterator.t (DataInst.t real) Base}.
Local Abbreviation iter := (BatchAdaptIter.t real Base).
Import BatchAdaptIter.

Lemma allocated_sized (it : iter) :
  allocated it → sized (Z.to_nat (BatchParam.batch_size (param_ it))) it.
Proof. intros (_ & Hl & Hi & Hd & _). by repeat split. Qed.





Lemma write_slot_sized n i d (it : iter) : sized n it → sized n (write_slot i d it).
Proof.
  intros (Hl & Hi & Hd). destruct it as [p b o h v l dt sh]; destruct o; simpl in *.
  unfold sized; simpl. by rewrite !length_insert.
Qed.





Lemma copy_inst_in_range top d (it : iter) n :
  sized n it → (Z.to_nat top < n)%nat →
  copy_inst top d it = Some (write_slot (Z.to_nat top) d it).
Proof.
  intros (Hl & Hi & Hd) Htop. unfold copy_inst.
  rewrite decide_True by lia. done.
Qed.

End Buffers.

(** ** The two loops of [Next] *)

Section Loops.
Context {real : Type} {Base : Type} `{!IIterator.t (DataInst.t real) Base}.
Local Abbreviation iter := (BatchAdaptIter.t real Base).
Import BatchAdaptIter.

Local Abbreviation bsize it := (BatchParam.batch_size (param_ it)).




End Loops.

(** ** What the loops do for every base iterator *)

Section Frames.
Context {real : Type} {Base : Type} `{!IIterator.t (DataInst.t real) Base}.
Local Abbreviation iter := (BatchAdaptIter.t real Base).
Import BatchAdaptIter.

Local Abbreviation bsize it := (BatchParam.batch_size (param_ it)).

Lemma steady_refl (it : iter) : steady it it.
Proof. by repeat split. Qed.

Lemma steady_trans (it1 it2 it3 : iter) : steady it1 it2 → steady it2 it3 → steady it1 it3.
Proof.
  unfold steady. intros (?&?&?&?&?&?&?&?&?) (?&?&?&?&?&?&?&?&?).
  repeat split; congruence.
Qed.

Lemma steady_sized n (it it' : iter) : steady it it' → sized n it → sized n it'.
Proof.
  unfold steady, sized. intros (?&?&?&?&?&?&?&?&?) (?&?&?).
  repeat split; congruence.
Qed.

Lemma steady_write_slot i d b (it : iter) : steady it (write_slot i d (set_base b it)).
Proof. unfold steady. simpl. rewrite !length_insert. by repeat split. Qed.

Lemma slot_kept_refl (it : iter) j : slot_kept it it j.
Proof. by repeat split. Qed.

Lemma slot_kept_trans (it1 it2 it3 : iter) j :
  slot_kept it1 it2 j → slot_kept it2 it3 j → slot_kept it1 it3 j.
Proof. unfold slot_kept. intros (?&?&?) (?&?&?). repeat split; congruence. Qed.

Lemma slot_kept_write_slot i d b (it : iter) j :
  i ≠ j → slot_kept it (write_slot i d (set_base b it)) j.
Proof. intros Hij. unfold slot_kept. simpl. by rewrite !list_lookup_insert_ne. Qed.

(** The [while] loop never runs out of fuel or past the buffers; it
    returns only [true], and then with the blobs published; when it
    falls through, [top] has grown by the number of rows written and is
    still short of [batch_size]. *)
Lemma while_Next_inv fuel : ∀ (it : iter) top,
  sized (Z.to_nat (bsize it)) it → bsize it < 2 ^ 32 →
  0 ≤ top < bsize it → (Z.to_nat (bsize it - top) ≤ fuel)%nat →
  match while_Next fuel it top with
  | Returned r it' =>
    r = Return true ∧ ∃ it1, it' = publish it1 ∧ steady it it1
      ∧ num_overflow_ it1 = num_overflow_ it
      ∧ (∀ j, (j < Z.to_nat top)%nat → slot_kept it it1 j)
  | FellThrough it' top' =>
    top ≤ top' < bsize it ∧ steady it it'
    ∧ num_overflow_ it' = num_overflow_ it
    ∧ (top' = top → buffers_kept it it')
    ∧ (∀ j, (j < Z.to_nat top)%nat → slot_kept it it' j)
  end.
Proof.
  induction fuel as [|fuel IH]; intros it top Hs Hbs Htop Hf; [lia|].
  simpl. destruct (IIterator.Next (base_ it)) as [[] b].
  - rewrite (copy_inst_in_range top _ _ (Z.to_nat (bsize it))) by (done || lia).
    rewrite to_index_t_small by lia.
    cbn [param_ write_slot set_data set_out set_label set_base].
    destruct (Z.leb_spec (BatchParam.batch_size (param_ it)) (top + 1)) as [Hge|Hlt].
    + split; [done|]. eexists. split; [done|]. split; [apply steady_write_slot|].
      split; [done|]. intros j Hj.
      apply (slot_kept_write_slot (Z.to_nat top) (IIterator.Value b) b). lia.
    + pose proof (steady_write_slot (Z.to_nat top) (IIterator.Value b) b it) as Hst.
      specialize (IH (write_slot (Z.to_nat top) (IIterator.Value b) (set_base b it)) (top + 1)).
      destruct (while_Next fuel _ (top + 1)) as [r it'|it' top'].
      * destruct IH as (-> & it1 & -> & Hst1 & Hv & Hk);
          [by eapply steady_sized|done|simpl; lia|simpl; lia|].
        split; [done|]. exists it1. split; [done|]. split; [by eapply steady_trans|].
        split; [done|]. intros j Hj. eapply slot_kept_trans; [|apply Hk; lia].
        apply (slot_kept_write_slot (Z.to_nat top) (IIterator.Value b) b). lia.
      * destruct IH as (Ht' & Hst1 & Hv & _ & Hk); [by eapply steady_sized|done|simpl; lia|simpl; lia|].
        simpl in Ht'. split; [lia|]. split; [by eapply steady_trans|]. split; [done|].
        split; [lia|]. intros j Hj. eapply slot_kept_trans; [|apply Hk; lia].
        apply (slot_kept_write_slot (Z.to_nat top) (IIterator.Value b) b). lia.
  - split; [lia|]. split; [by repeat split|]. split; [done|]. split; [by repeat split|].
    intros j _. by repeat split.
Qed.

(** The refill loop never runs out of fuel or past the buffers; it
    stops only on its [CHECK], or falls through at [batch_size] with one
    count in [num_overflow_] for each slot from [top] on. *)
Lemma for_refill_inv fuel : ∀ (it : iter) top v,
  sized (Z.to_nat (bsize it)) it → bsize it < 2 ^ 32 →
  0 ≤ top ≤ bsize it → num_overflow_ it = to_int v →
  (Z.to_nat (bsize it - top) < fuel)%nat →
  match for_refill fuel it top with
  | Returned r it' =>
    r = CheckFailed "number of input must be bigger than batch size"
    ∧ steady it it'
  | FellThrough it' top' =>
    top' = bsize it ∧ steady it it'
    ∧ num_overflow_ it' = to_int (v + (bsize it - top))
    ∧ (∀ j, (j < Z.to_nat top)%nat → slot_kept it it' j)
  end.
Proof.
  induction fuel as [|fuel IH]; intros it top v Hs Hbs Htop Hv Hf; [lia|].
  simpl. destruct (Z.ltb_spec top (bsize it)) as [Hlt|Hge].
  - destruct (IIterator.Next (base_ it)) as [[] b].
    + rewrite (copy_inst_in_range top _ _ (Z.to_nat (bsize it))) by (done || lia).
      rewrite to_index_t_small by lia.
      pose proof (steady_write_slot (Z.to_nat top) (IIterator.Value b) b it) as Hst.
      specialize (IH (set_num_overflow (to_int (num_overflow_ it + 1))
                        (write_slot (Z.to_nat top) (IIterator.Value b) (set_base b it)))
                    (top + 1) (v + 1)).
      destruct (for_refill fuel _ (top + 1)) as [r it'|it' top'].
      * destruct IH as (-> & Hst1);
          [by eapply (steady_sized _ it)|done|simpl; lia|simpl; by rewrite Hv, to_int_succ|simpl; lia|].
        split; [done|]. eapply steady_trans; [exact Hst|exact Hst1].
      * destruct IH as (-> & Hst1 & Hv' & Hk);
          [by eapply (steady_sized _ it)|done|simpl; lia|simpl; by rewrite Hv, to_int_succ|simpl; lia|].
        split; [done|]. split; [eapply steady_trans; [exact Hst|exact Hst1]|].
        split; [rewrite Hv'; simpl; f_equal; lia|].
        intros j Hj. eapply slot_kept_trans; [|apply Hk; lia].
        apply (slot_kept_write_slot (Z.to_nat top) (IIterator.Value b) b). lia.
    + split; [done|]. by repeat split.
  - split; [lia|]. split; [apply steady_refl|]. split; [rewrite Hv; f_equal; lia|].
    intros j _. apply slot_kept_refl.
Qed.
End Frames.

(** ** One call of [Next] *)

Section NextCases.
Context {real : Type} {Base : Type} `{!IIterator.t (DataInst.t real) Base}.
Local Abbreviation iter := (BatchAdaptIter.t real Base).
Import BatchAdaptIter.

Local Abbreviation bsize it := (BatchParam.batch_size (param_ it)).

Lemma reads_dec (it : iter) :
  reads it ∨ (BatchParam.test_skipread (param_ it) = true ∧ head_ it = 0).
Proof.
  unfold reads. destruct (BatchParam.test_skipread (param_ it)); [|by left; left].
  destruct (decide (head_ it = 0)); [by right|by left; right].
Qed.

(** The short cut of [test_skipread]. *)
Lemma Next_fuel_skip fuel (it : iter) :
  BatchParam.test_skipread (param_ it) = true → head_ it = 0 →
  Next_fuel fuel it = (Return true, set_padd 0 it).
Proof. intros Hsk Hh. unfold Next_fuel. simpl. by rewrite Hsk, Hh. Qed.

(** Past the short cut, with an overflow pending. *)
Lemma Next_fuel_pending fuel (it : iter) :
  reads it → num_overflow_ it ≠ 0 →
  Next_fuel fuel it = (Return false, entered it).
Proof.
  intros Hr Hv. unfold Next_fuel. simpl.
  replace (BatchParam.test_skipread (param_ it) && (head_ it =? 0)) with false.
  - destruct (Z.eqb_spec (num_overflow_ it) 0); [done|]. done.
  - destruct Hr as [->|Hh]; [done|].
    destruct (Z.eqb_spec (head_ it) 0); [done|]. by rewrite andb_false_r.
Qed.

(** Past the short cut, with no overflow pending: the two loops. *)
Lemma Next_fuel_reading fuel (it : iter) :
  reads it → num_overflow_ it = 0 →
  Next_fuel fuel it =
  match while_Next fuel (entered it) 0 with
  | Returned r it1 => (r, it1)
  | FellThrough it1 top =>
    if negb (top =? 0) then
      if BatchParam.round_batch (param_ it1) then
        match for_refill fuel
                (set_base (IIterator.BeforeFirst (base_ it1)) (set_num_overflow 0 it1)) top with
        | Returned r it2 => (r, it2)
        | FellThrough it2 _ => (Return true, publish (set_padd (to_index_t (num_overflow_ it2)) it2))
        end
      else (Return true, publish (set_padd (to_index_t (bsize it1 - top)) it1))
    else (Return false, it1)
  end.
Proof.
  intros Hr Hv. unfold Next_fuel. simpl.
  replace (BatchParam.test_skipread (param_ it) && (head_ it =? 0)) with false.
  - rewrite Hv. simpl. done.
  - destruct Hr as [->|Hh]; [done|].
    destruct (Z.eqb_spec (head_ it) 0); [done|]. by rewrite andb_false_r.
Qed.


(** No instance at all. *)
Lemma Next_empty (it : iter) s2 :
  reads it → num_overflow_ it = 0 → IIterator.Next (base_ it) = (false, s2) →
  Next it = (Return false, set_base s2 (entered it)).
Proof.
  intros Hr Hv Hx. unfold Next. rewrite Next_fuel_reading by done.
  simpl. by rewrite Hx.
Qed.



End NextCases.

(** ** Every call of [Next] *)

Section NextAlways.
Context {real : Type} {Base : Type} `{!IIterator.t (DataInst.t real) Base}.
Local Abbreviation iter := (BatchAdaptIter.t real Base).
Import BatchAdaptIter.

Local Abbreviation bsize it := (BatchParam.batch_size (param_ it)).

(** Neither loop touches the configuration or [head_], whatever the
    base iterator does and however the loop is left. *)
Lemma while_Next_control fuel : ∀ (it : iter) top,
  param_ (flow_state (while_Next fuel it top)) = param_ it
  ∧ head_ (flow_state (while_Next fuel it top)) = head_ it.
Proof.
  induction fuel as [|fuel IH]; intros it top; [done|].
  simpl. destruct (IIterator.Next (base_ it)) as [[] b]; [|done].
  unfold copy_inst. case_decide; [|done]. cbn [param_ set_data set_out set_label set_base].
  case_match; [done|]. by destruct (IH (write_slot (Z.to_nat top) (IIterator.Value b) (set_base b it))
                                       (to_index_t (top + 1))).
Qed.

Lemma for_refill_control fuel : ∀ (it : iter) top,
  param_ (flow_state (for_refill fuel it top)) = param_ it
  ∧ head_ (flow_state (for_refill fuel it top)) = head_ it.
Proof.
  induction fuel as [|fuel IH]; intros it top; [done|].
  simpl. case_match; [|done].
  destruct (IIterator.Next (base_ it)) as [[] b]; [|done].
  unfold copy_inst. case_decide; [|done].
  by destruct (IH (set_num_overflow (to_int (num_overflow_ it + 1))
                     (write_slot (Z.to_nat top) (IIterator.Value b) (set_base b it)))
                 (to_index_t (top + 1))).
Qed.

(** [Next] leaves the configuration alone and always clears [head_]
    ([head_] is already 0 on the short cut), with any amount of fuel and
    in any state. *)
Lemma Next_fuel_control fuel (it : iter) :
  param_ (Next_fuel fuel it).2 = param_ it ∧ head_ (Next_fuel fuel it).2 = 0.
Proof.
  unfold Next_fuel.
  destruct (BatchParam.test_skipread _ && _) eqn:Hsk.
  - apply andb_true_iff in Hsk as [_ Hh%Z.eqb_eq]. done.
  - case_match; [done|].
    match goal with |- context [while_Next fuel ?i 0] =>
      destruct (while_Next_control fuel i 0) as [Hp Hh]; destruct (while_Next fuel i 0) as [r it1|it1 top]
    end; [done|]. simpl in Hp, Hh.
    case_match; [|done]. case_match; [|done].
    match goal with |- context [for_refill fuel ?i top] =>
      destruct (for_refill_control fuel i top) as [Hp' Hh']; destruct (for_refill fuel i top) as [r it2|it2 top']
    end; simpl in Hp', Hh'; simpl; split; congruence.
Qed.

Lemma publish_blobs (it : iter) :
  length (DataBatch.data (out_ it)) = 2%nat →
  DataBatch.data (out_ (publish it)) = [TBlob_data; TBlob_label].
Proof.
  simpl. destruct (DataBatch.data (out_ it)) as [|a [|b [|c l]]]; simpl; by try lia.
Qed.

Lemma steady_allocated (it it' : iter) : steady it it' → allocated it → allocated it'.
Proof.
  unfold steady, allocated. intros (Hp&?&?&?&Hd&?&?&?&?) (?&?&?&?&?).
  rewrite Hp, Hd. repeat split; congruence || lia.
Qed.

Lemma allocated_publish (it : iter) : allocated it → allocated (publish it).
Proof.
  unfold allocated. simpl. rewrite !length_insert. done.
Qed.

(** What one call of [Next] can do to an object whose buffers are
    allocated. *)
Lemma Next_inv (it : iter) r it' :
  allocated it → Next it = (r, it') →
  allocated it'
  ∧ match r with
    | Return true =>
      0 ≤ DataBatch.num_batch_padd (out_ it') ≤ bsize it
      ∧ (reads it → DataBatch.data (out_ it') = [TBlob_data; TBlob_label])
    | Return false =>
      DataBatch.num_batch_padd (out_ it') = 0
      ∧ buffers_kept it it'
      ∧ DataBatch.data (out_ it') = DataBatch.data (out_ it)
      ∧ DataBatch.batch_size (out_ it') = DataBatch.batch_size (out_ it)
      ∧ num_overflow_ it' = num_overflow_ it
    | CheckFailed msg => msg = "number of input must be bigger than batch size"%string
    | _ => False
    end.
Proof.
  intros Ha Hnext. pose proof Ha as (Hbs & _ & _ & _ & Hblobs).
  destruct (reads_dec it) as [Hr|[Hsk Hh]].
  2:{ unfold Next in Hnext. rewrite Next_fuel_skip in Hnext by done.
      injection Hnext as <- <-. split; [exact Ha|]. simpl. split; [lia|].
      intros [?|?]; congruence. }
  destruct (decide (num_overflow_ it = 0)) as [Hv|Hv].
  2:{ unfold Next in Hnext. rewrite Next_fuel_pending in Hnext by done.
      injection Hnext as <- <-. split; [exact Ha|]. by repeat split. }
  unfold Next in Hnext. rewrite Next_fuel_reading in Hnext by done.
  pose proof (while_Next_inv (S (Z.to_nat (bsize it))) (entered it) 0) as Hw.
  destruct (while_Next _ (entered it) 0) as [r1 it1|it1 top].
  - destruct Hw as (-> & it0 & -> & Hst & _ & _); [by apply allocated_sized|simpl; lia..|].
    injection Hnext as <- <-.
    pose proof (steady_allocated _ _ Hst Ha) as Ha0.
    split; [by apply allocated_publish|]. split.
    + destruct Hst as (_&_&_&Hpd&_). simpl in *. rewrite Hpd. lia.
    + intros _. apply publish_blobs. by destruct Ha0 as (_&_&_&_&?).
  - destruct Hw as (Htop & Hst & Hv1 & Hkept & _); [by apply allocated_sized|simpl; lia..|].
    pose proof (steady_allocated _ _ Hst Ha) as Ha1.
    pose proof Hst as (Hp1 & _ & _ & Hpd1 & Hd1 & Hb1 & _). simpl in Htop, Hp1, Hpd1, Hd1, Hb1, Hv1.
    destruct (Z.eqb_spec top 0) as [Htop0|Htop0]; cbn [negb] in Hnext.
    { injection Hnext as <- <-. split; [done|].
      split; [done|]. split; [by apply Hkept|]. by repeat split. }
    destruct (BatchParam.round_batch (param_ it1)).
    2:{ injection Hnext as <- <-. split; [by apply allocated_publish|]. split.
        - simpl. rewrite Hp1. rewrite to_index_t_small by lia. lia.
        - intros _. apply publish_blobs. simpl. by destruct Ha1 as (_&_&_&_&?). }
    pose proof (for_refill_inv (S (Z.to_nat (bsize it)))
                  (set_base (IIterator.BeforeFirst (base_ it1)) (set_num_overflow 0 it1)) top 0) as Hf.
    destruct (for_refill _ _ top) as [r2 it2|it2 top2].
    + destruct Hf as (-> & Hst2);
        [apply (allocated_sized it1 Ha1)|simpl; rewrite Hp1; lia|simpl; rewrite Hp1; lia
        |reflexivity|simpl; rewrite Hp1; lia|].
      injection Hnext as <- <-. split; [|done].
      by apply (steady_allocated _ _ Hst2 Ha1).
    + destruct Hf as (-> & Hst2 & Hv2 & _);
        [apply (allocated_sized it1 Ha1)|simpl; rewrite Hp1; lia|simpl; rewrite Hp1; lia
        |reflexivity|simpl; rewrite Hp1; lia|].
      injection Hnext as <- <-.
      pose proof (steady_allocated _ _ Hst2 Ha1) as Ha2.
      split; [by apply (allocated_publish (set_padd _ it2))|]. split.
      * simpl. rewrite Hv2. simpl. rewrite Hp1.
        rewrite to_index_t_to_int, to_index_t_small by lia. lia.
      * intros _. apply publish_blobs. simpl. by destruct Ha2 as (_&_&_&_&?).
Qed.
End NextAlways.

(** ** The first slots of a batch *)

Section Prefix.
Context {real : Type} {Base : Type} `{!IIterator.t (DataInst.t real) Base}.
Local Abbreviation iter := (BatchAdaptIter.t real Base).
Import BatchAdaptIter.

Local Abbreviation bsize it := (BatchParam.batch_size (param_ it)).

Lemma slot_kept_written (it it' : iter) j d :
  slot_kept it it' j → slot_written it j d → slot_written it' j d.
Proof. unfold slot_kept, slot_written. intros (->&->&->). done. Qed.

(** Once the blobs are published, the batch shows the buffers. *)
Lemma published_slot_holds (it : iter) j d :
  DataBatch.data (out_ it) = [TBlob_data; TBlob_label] →
  slot_written it j d → slot_holds it j d.
Proof.
  intros Hb (Hi & Hd & Hl). unfold slot_holds, slot_index, slot_data, slot_label, batch_blob.
  rewrite Hb. simpl. done.
Qed.

(** Whatever way the [while] loop is left, the instances the base
    iterator yielded first are in the first slots from [top] on. *)
Lemma while_Next_prefix s ds s1 :
  yields s ds s1 → ∀ (it : iter) top fuel,
  base_ it = s → sized (Z.to_nat (bsize it)) it → bsize it < 2 ^ 32 →
  0 ≤ top < bsize it → top + Z.of_nat (length ds) ≤ bsize it →
  (Z.to_nat (bsize it - top) ≤ fuel)%nat →
  (∀ k d, ds !! k = Some d →
     slot_written (flow_state (while_Next fuel it top)) (Z.to_nat top + k) d)
  ∧ match while_Next fuel it top with
    | Returned _ _ => True
    | FellThrough _ top' => top + Z.of_nat (length ds) ≤ top'
    end.
Proof.
  induction 1 as [s|s s1 ds s3 Hn Hy IH]; intros it top fuel Hb Hs Hbs Htop Hlen Hf.
  - split; [done|]. pose proof (while_Next_inv fuel it top Hs Hbs Htop Hf) as Hw.
    destruct (while_Next fuel it top); [done|]. simpl. lia.
  - destruct fuel as [|fuel]; [lia|]. simpl in Hlen.
    pose proof (while_Next_inv (S fuel) it top Hs Hbs Htop Hf) as Hw.
    simpl in Hw |- *. rewrite Hb, Hn in Hw |- *.
    rewrite (copy_inst_in_range top _ _ (Z.to_nat (bsize it))) in Hw |- * by (done || lia).
    rewrite to_index_t_small in Hw |- * by lia.
    cbn [param_ write_slot set_data set_out set_label set_base] in Hw |- *.
    set (it1 := write_slot (Z.to_nat top) (IIterator.Value s1) (set_base s1 it)) in *.
    assert (slot_written it1 (Z.to_nat top) (IIterator.Value s1)) as Hd.
    { destruct Hs as (Hl & Hi & Hdt). unfold slot_written, it1. simpl.
      rewrite !list_lookup_insert_eq by lia. done. }
    destruct (Z.leb_spec (BatchParam.batch_size (param_ it)) (top + 1)) as [Hge|Hlt].
    + split; [|done]. intros k d Hk. destruct ds as [|d' ds]; [|simpl in Hlen; lia].
      destruct k as [|k]; [|done]. injection Hk as <-. by rewrite Nat.add_0_r.
    + destruct (IH it1 (top + 1) fuel) as [Hpre Htop'];
        [done|by apply (write_slot_sized _ _ _ (set_base s1 it))|done|simpl; lia|simpl; lia|simpl; lia|].
      pose proof (while_Next_inv fuel it1 (top + 1)) as Hw1.
      destruct (while_Next fuel it1 (top + 1)) as [r it'|it' top'].
      * destruct Hw1 as (_ & it0 & -> & _ & _ & Hk0);
          [by apply (write_slot_sized _ _ _ (set_base s1 it))|done|simpl; lia|simpl; lia|].
        split; [|done]. intros [|k] d Hk.
        -- injection Hk as <-. rewrite Nat.add_0_r.
           apply (slot_kept_written it1); [|done]. apply (Hk0 (Z.to_nat top)). lia.
        -- replace (Z.to_nat top + S k)%nat with (Z.to_nat (top + 1) + k)%nat by lia.
           by apply Hpre.
      * destruct Hw1 as (_ & _ & _ & _ & Hk0);
          [by apply (write_slot_sized _ _ _ (set_base s1 it))|done|simpl; lia|simpl; lia|].
        split; [|lia]. intros [|k] d Hk.
        -- injection Hk as <-. rewrite Nat.add_0_r.
           apply (slot_kept_written it1); [|done]. apply (Hk0 (Z.to_nat top)). lia.
        -- replace (Z.to_nat top + S k)%nat with (Z.to_nat (top + 1) + k)%nat by lia.
           by apply Hpre.
Qed.

(** A successful [Next] that read from the base iterator shows, in the
    first slots of its batch, the instances the base iterator yielded
    first. *)
Lemma Next_prefix (it : iter) ds s1 it' :
  allocated it → reads it → num_overflow_ it = 0 →
  yields (base_ it) ds s1 → Z.of_nat (length ds) ≤ bsize it →
  Next it = (Return true, it') →
  ∀ k d, ds !! k = Some d → slot_holds it' k d.
Proof.
  intros Ha Hr Hv Hy Hlen Hnext k d Hk.
  destruct (Next_inv it _ _ Ha Hnext) as (Ha' & _ & Hblobs).
  apply published_slot_holds; [by apply Hblobs|].
  pose proof Ha as (Hbs & _).
  unfold Next in Hnext. rewrite Next_fuel_reading in Hnext by done.
  destruct (while_Next_prefix _ _ _ Hy (entered it) 0 (S (Z.to_nat (bsize it))))
    as [Hpre Htop]; [done|by apply allocated_sized|simpl; lia..|].
  specialize (Hpre k d Hk).
  pose proof (while_Next_inv (S (Z.to_nat (bsize it))) (entered it) 0) as Hw.
  destruct (while_Next _ (entered it) 0) as [r1 it1|it1 top]; simpl in Hpre.
  - by injection Hnext as _ <-.
  - destruct Hw as (Htop1 & Hst & Hv1 & _ & _); [by apply allocated_sized|simpl; lia..|].
    pose proof (steady_allocated _ _ Hst Ha) as Ha1.
    pose proof Hst as (Hp1 & _). simpl in Htop1, Hp1.
    destruct (Z.eqb_spec top 0) as [Htop0|Htop0]; cbn [negb] in Hnext; [done|].
    destruct (BatchParam.round_batch (param_ it1)); [|by injection Hnext as <-].
    pose proof (for_refill_inv (S (Z.to_nat (bsize it)))
                  (set_base (IIterator.BeforeFirst (base_ it1)) (set_num_overflow 0 it1)) top 0) as Hf.
    destruct (for_refill _ _ top) as [r2 it2|it2 top2].
    + destruct Hf as (-> & _);
        [apply (allocated_sized it1 Ha1)|simpl; rewrite Hp1; lia|simpl; rewrite Hp1; lia
        |reflexivity|simpl; rewrite Hp1; lia|]. done.
    + destruct Hf as (_ & _ & _ & Hkept);
        [apply (allocated_sized it1 Ha1)|simpl; rewrite Hp1; lia|simpl; rewrite Hp1; lia
        |reflexivity|simpl; rewrite Hp1; lia|].
      injection Hnext as <-.
      apply (slot_kept_written it2); [done|].
      apply (slot_kept_written it1); [|done].
      apply (Hkept k). apply lookup_lt_Some in Hk. simpl in Htop. lia.
Qed.
End Prefix.

(** ** The base iterator over a finite data set *)

Section ListIterFacts.
Context {real : Type}.
Implicit Types s : ListIter.t real.

Lemma ListIter_Next_more s d :
  ListIter.dataset s !! ListIter.cursor s = Some d →
  IIterator.Next s = (true, ListIter.set_cursor (S (ListIter.cursor s)) s)
  ∧ IIterator.Value (ListIter.set_cursor (S (ListIter.cursor s)) s) = d.
Proof.
  intros Hd. pose proof (lookup_lt_Some _ _ _ Hd) as Hlt.
  simpl. unfold ListIter.Next, ListIter.Value. rewrite decide_True by done.
  simpl. by rewrite Hd.
Qed.


(** From cursor [c], the iterator yields the next [n] samples of the
    data set in order, provided they exist. *)
Lemma ListIter_yields n : ∀ s,
  (ListIter.cursor s + n ≤ length (ListIter.dataset s))%nat →
  yields s (take n (drop (ListIter.cursor s) (ListIter.dataset s)))
    (ListIter.set_cursor (ListIter.cursor s + n) s).
Proof.
  induction n as [|n IH]; intros s Hn.
  - rewrite take_0, Nat.add_0_r. destruct s. constructor.
  - destruct (lookup_lt_is_Some_2 (ListIter.dataset s) (ListIter.cursor s)) as [d Hd]; [lia|].
    destruct (ListIter_Next_more s d Hd) as [Hnext Hval].
    rewrite (drop_S _ _ _ Hd). cbn [take]. rewrite <- Hval.
    econstructor; [exact Hnext|].
    specialize (IH (ListIter.set_cursor (S (ListIter.cursor s)) s)).
    simpl in IH. replace (ListIter.cursor s + S n)%nat with (S (ListIter.cursor s + n)) by lia.
    apply IH. lia.
Qed.
End ListIterFacts.

(** ** Properties of the state machine, for every base iterator *)

Section StateMachine.
Context {real : Type} {Base : Type} `{!IIterator.t (DataInst.t real) Base}.
Local Abbreviation iter := (BatchAdaptIter.t real Base).
Import BatchAdaptIter.

Local Abbreviation bsize it := (BatchParam.batch_size (param_ it)).

Lemma Next_head (it : iter) : head_ (Next it).2 = 0.
Proof. apply Next_fuel_control. Qed.

Lemma Next_times_head n : ∀ it : iter, n ≠ 0%nat → head_ (Next_times n it).2 = 0.
Proof.
  induction n as [|n IH]; intros it Hn; [done|].
  simpl. pose proof (Next_head it) as Hh. destruct (Next it) as [r it1]. simpl in Hh.
  destruct n as [|n]; [done|].
  specialize (IH it1 ltac:(done)). by destruct (Next_times (S n) it1).
Qed.

(** C7 (as the code has it).  [Value] fails its [CHECK] exactly when
    [head_] is not 0.  [BeforeFirst] sets [head_] and every call of [Next]
    clears it, whatever the call answers; so after [BeforeFirst] and [n]
    calls of [Next], [Value] fails exactly when [n = 0], and otherwise
    returns the batch record [out_], also when none of the calls returned
    [true]. *)
Theorem Value_needs_a_Next_call (it : iter) :
  (Value it = CheckFailed "must call Next to get value" ↔ head_ it ≠ 0)
  ∧ (Value it = Return (out_ it) ↔ head_ it = 0)
  ∧ Value (BeforeFirst it) = CheckFailed "must call Next to get value"
  ∧ Value (Next it).2 = Return (out_ (Next it).2)
  ∧ ∀ n, Value (Next_times n (BeforeFirst it)).2 = CheckFailed "must call Next to get value"
         ↔ n = 0%nat.
Proof.
  assert (∀ i : iter, head_ i = 0 → Value i = Return (out_ i)) as H0.
  { intros i Hh. unfold Value. by rewrite Hh. }
  assert (∀ i : iter, head_ i ≠ 0 → Value i = CheckFailed "must call Next to get value") as H1.
  { intros i Hh. unfold Value. by destruct (Z.eqb_spec (head_ i) 0). }
  split; [|split; [|split; [|split]]].
  - split; [|apply H1]. intros Hv Hh. by rewrite (H0 _ Hh) in Hv.
  - split; [|apply H0]. intros Hv. destruct (decide (head_ it = 0)) as [|Hh]; [done|].
    by rewrite (H1 _ Hh) in Hv.
  - by apply H1.
  - apply H0, Next_head.
  - intros n. split.
    + intros Hv. destruct (decide (n = 0%nat)) as [|Hn]; [done|].
      by rewrite (H0 _ (Next_times_head n (BeforeFirst it) Hn)) in Hv.
    + intros ->. by apply H1.
Qed.

Lemma Next_times_pending n : ∀ it : iter,
  BatchParam.test_skipread (param_ it) = false → num_overflow_ it ≠ 0 →
  (Next_times n it).1 = replicate n (Return false)
  ∧ base_ (Next_times n it).2 = base_ it
  ∧ num_overflow_ (Next_times n it).2 = num_overflow_ it
  ∧ buffers_kept it (Next_times n it).2.
Proof.
  induction n as [|n IH]; intros it Hsk Hv; [done|].
  simpl. unfold Next. rewrite Next_fuel_pending by (done || by left).
  destruct (IH (entered it) Hsk Hv) as (Hr & Hb & Ho & Hk).
  destruct (Next_times n (entered it)) as [rs it2]. simpl in *. by rewrite Hr.
Qed.

(** C8 (as the code has it).  With [test_skipread] off, once an
    overflow is pending every call of [Next] returns [false] at once: the
    base iterator is not touched and the overflow stays pending, so no
    call succeeds, however many are made, before [BeforeFirst]. *)
Theorem Next_blocked_while_overflow_pending (it : iter) (n : nat) :
  BatchParam.test_skipread (param_ it) = false → num_overflow_ it ≠ 0 →
  (Next_times n it).1 = replicate n (Return false)
  ∧ base_ (Next_times n it).2 = base_ it
  ∧ num_overflow_ (Next_times n it).2 = num_overflow_ it.
Proof.
  intros Hsk Hv. destruct (Next_times_pending n it Hsk Hv) as (Hr & Hb & Ho & _).
  done.
Qed.

(** C10.  After any call of [Next] on an allocated object, [Value]
    passes its [CHECK] and returns [out_], also when [Next] answered
    [false] (an overflow is pending, or the base iterator had nothing
    left); in that case the batch is the one published before, buffers
    and blobs untouched, except that its padding count is now 0.  The
    call itself always comes back: with [true], [false] or the fatal
    [CHECK] of the refill. *)
Theorem Value_after_any_Next (it : iter) :
  allocated it →
  let r := (Next it).1 in
  let it' := (Next it).2 in
  r ≠ OutOfFuel ∧ r ≠ OutOfBounds
  ∧ Value it' = Return (out_ it')
  ∧ (r = Return false →
     DataBatch.num_batch_padd (out_ it') = 0
     ∧ DataBatch.inst_index (out_ it') = DataBatch.inst_index (out_ it)
     ∧ DataBatch.data (out_ it') = DataBatch.data (out_ it)
     ∧ DataBatch.batch_size (out_ it') = DataBatch.batch_size (out_ it)
     ∧ buffers_kept it it')
  ∧ (reads it → num_overflow_ it ≠ 0 → r = Return false)
  ∧ (reads it → num_overflow_ it = 0 → (IIterator.Next (base_ it)).1 = false →
     r = Return false).
Proof.
  intros Ha r it'. subst r it'.
  destruct (Next it) as [r it'] eqn:Hnext. simpl.
  destruct (Next_inv it r it' Ha Hnext) as (Ha' & Hr).
  split; [by intros ->|]. split; [by intros ->|]. split; [|split; [|split]].
  - unfold Value. replace (head_ it') with (head_ (Next it).2) by by rewrite Hnext.
    by rewrite Next_head.
  - intros ->. destruct Hr as (Hp & Hk & Hd & Hb & _).
    split; [done|]. split; [by destruct Hk as (_ & ? & _)|]. split; [done|]. split; [done|]. exact Hk.
  - intros Hrd Hv. unfold Next in Hnext. rewrite Next_fuel_pending in Hnext by done.
    by injection Hnext as <-.
  - intros Hrd Hv Hx. destruct (IIterator.Next (base_ it)) as [more s2] eqn:Hb. simpl in Hx.
    subst more. rewrite (Next_empty it s2) in Hnext by done. by injection Hnext as <-.
Qed.

(** C6 (as the code has it).  A call of [Next] that produces no batch
    (it answers [false]) or that takes the [test_skipread] short cut
    leaves the three buffers, the blobs and the batch size of the
    published batch as they were, but not its padding count, which the
    first statement of [Next] has set to 0.  On the short cut the base
    iterator is not consulted either. *)
Theorem Next_without_fill_keeps_all_but_padding (it : iter) r it' :
  allocated it → Next it = (r, it') →
  r = Return false ∨ (BatchParam.test_skipread (param_ it) = true ∧ head_ it = 0) →
  buffers_kept it it'
  ∧ DataBatch.data (out_ it') = DataBatch.data (out_ it)
  ∧ DataBatch.batch_size (out_ it') = DataBatch.batch_size (out_ it)
  ∧ DataBatch.num_batch_padd (out_ it') = 0
  ∧ (BatchParam.test_skipread (param_ it) = true ∧ head_ it = 0 →
     r = Return true ∧ base_ it' = base_ it).
Proof.
  intros Ha Hnext Hcase.
  destruct (reads_dec it) as [Hrd|[Hsk Hh]].
  - destruct Hcase as [->|[Hsk Hh]]; [|by destruct Hrd as [?|?]; congruence].
    destruct (Next_inv it _ _ Ha Hnext) as (_ & Hp & Hk & Hd & Hb & _).
    split; [exact Hk|]. split; [done|]. split; [done|]. split; [done|].
    intros [Hsk Hh]. destruct Hrd; congruence.
  - unfold Next in Hnext. rewrite Next_fuel_skip in Hnext by done.
    injection Hnext as <- <-. by repeat split.
Qed.

(** A call of [Next] that does not take the short cut behaves the same
    whatever [test_skipread] is set to. *)
Lemma copy_inst_set_param p top d (it : iter) :
  copy_inst top d (set_param p it) = set_param p <$> copy_inst top d it.
Proof. unfold copy_inst. simpl. by case_decide. Qed.

Lemma while_Next_set_param p fuel : ∀ (it : iter) top,
  BatchParam.batch_size p = bsize it →
  while_Next fuel (set_param p it) top
  = match while_Next fuel it top with
    | Returned r it' => Returned r (set_param p it')
    | FellThrough it' top' => FellThrough (set_param p it') top'
    end.
Proof.
  induction fuel as [|fuel IH]; intros it top Hp; [done|].
  simpl. destruct (IIterator.Next (base_ it)) as [[] b]; [|done].
  change (set_base b (set_param p it)) with (set_param p (set_base b it)).
  rewrite copy_inst_set_param.
  destruct (copy_inst top (IIterator.Value b) (set_base b it)) as [it1|] eqn:Hc; [|done].
  simpl. rewrite Hp.
  assert (param_ it1 = param_ it) as ->.
  { unfold copy_inst in Hc. case_decide; [|done]. by injection Hc as <-. }
  case_match; [done|]. apply IH.
  unfold copy_inst in Hc. case_decide; [|done]. by injection Hc as <-.
Qed.

Lemma for_refill_set_param p fuel : ∀ (it : iter) top,
  BatchParam.batch_size p = bsize it →
  for_refill fuel (set_param p it) top
  = match for_refill fuel it top with
    | Returned r it' => Returned r (set_param p it')
    | FellThrough it' top' => FellThrough (set_param p it') top'
    end.
Proof.
  induction fuel as [|fuel IH]; intros it top Hp; [done|].
  simpl. rewrite Hp. case_match; [|done].
  destruct (IIterator.Next (base_ it)) as [[] b]; [|done].
  change (set_base b (set_param p it)) with (set_param p (set_base b it)).
  rewrite copy_inst_set_param.
  destruct (copy_inst top (IIterator.Value b) (set_base b it)) as [it1|] eqn:Hc; [|done].
  simpl. apply (IH (set_num_overflow _ it1)).
  unfold copy_inst in Hc. case_decide; [|done]. by injection Hc as <-.
Qed.

Lemma Next_set_test_skipread b (it : iter) :
  head_ it ≠ 0 →
  Next (set_test_skipread b it) = ((Next it).1, set_test_skipread b (Next it).2).
Proof.
  intros Hh. unfold Next. cbn [set_test_skipread param_ set_param BatchParam.batch_size].
  set (fuel := S (Z.to_nat (bsize it))).
  destruct (decide (num_overflow_ it = 0)) as [Hv|Hv].
  2:{ rewrite !Next_fuel_pending by (done || by right). done. }
  rewrite !Next_fuel_reading by (done || by right).
  pose (p := BatchParam.mk (bsize it) (BatchParam.input_shape (param_ it))
               (BatchParam.label_width (param_ it)) (BatchParam.round_batch (param_ it))
               b (BatchParam.silent (param_ it))).
  change (entered (set_test_skipread b it)) with (set_param p (entered it)).
  rewrite while_Next_set_param by done.
  destruct (while_Next_control fuel (entered it) 0) as [Hp _].
  destruct (while_Next fuel (entered it) 0) as [r1 it1|it1 top]; simpl in Hp.
  { unfold set_test_skipread; cbn [fst snd]; by rewrite Hp. }
  case_match; [|unfold set_test_skipread; cbn [fst snd]; by rewrite Hp].
  cbn [param_ set_param]. unfold p at 1. cbn [BatchParam.round_batch]. rewrite Hp.
  destruct (BatchParam.round_batch (param_ it)) eqn:Hrb;
    [|unfold set_test_skipread; cbn [fst snd param_ publish set_padd set_out]; rewrite Hp; unfold p; by rewrite Hrb].
  change (set_base (IIterator.BeforeFirst (base_ (set_param p it1)))
            (set_num_overflow 0 (set_param p it1)))
    with (set_param p (set_base (IIterator.BeforeFirst (base_ it1)) (set_num_overflow 0 it1))).
  rewrite for_refill_set_param by (simpl; by rewrite Hp).
  match goal with |- context [for_refill fuel ?i top] =>
    destruct (for_refill_control fuel i top) as [Hp' _];
    destruct (for_refill fuel i top) as [r2 it2|it2 top2]
  end; simpl in Hp'; unfold set_test_skipread; cbn [fst snd param_ publish set_padd set_out];
    rewrite Hp', Hp; unfold p; by rewrite Hrb.
Qed.

Lemma BeforeFirst_param (it : iter) : param_ (BeforeFirst it) = param_ it.
Proof. unfold BeforeFirst. by case_match. Qed.

Lemma set_test_skipread_id (it : iter) :
  BatchParam.test_skipread (param_ it) = true →
  set_test_skipread true (set_test_skipread false it) = it.
Proof. destruct it as [[] ? ? ? ? ? ? ?]. simpl. by intros ->. Qed.

Lemma Next_times_skip n : ∀ it : iter,
  BatchParam.test_skipread (param_ it) = true → head_ it = 0 →
  (Next_times n it).1 = replicate n (Return true)
  ∧ base_ (Next_times n it).2 = base_ it
  ∧ buffers_kept it (Next_times n it).2.
Proof.
  induction n as [|n IH]; intros it Hsk Hh; [done|].
  simpl. unfold Next. rewrite Next_fuel_skip by done.
  destruct (IH (set_padd 0 it) Hsk Hh) as (Hr & Hb & Hk).
  destruct (Next_times n (set_padd 0 it)) as [rs it2]. simpl in *. by rewrite Hr.
Qed.

(** C3 (as the code has it).  With [test_skipread] on, the first call
    of [Next] after [BeforeFirst] does not skip: it reads from the base
    iterator exactly as it would with the flag off, and leaves [head_]
    cleared.  It is every later call, until the next [BeforeFirst], that
    returns [true] without consulting the base iterator and without
    touching the buffers. *)
Theorem test_skipread_reads_first_then_skips (it : iter) (n : nat) :
  BatchParam.test_skipread (param_ it) = true →
  let it0 := BeforeFirst it in
  let it1 := (Next it0).2 in
  (Next it0).1 = (Next (set_test_skipread false it0)).1
  ∧ it1 = set_test_skipread true (Next (set_test_skipread false it0)).2
  ∧ head_ it1 = 0
  ∧ (Next_times n it1).1 = replicate n (Return true)
  ∧ base_ (Next_times n it1).2 = base_ it1
  ∧ buffers_kept it1 (Next_times n it1).2.
Proof.
  intros Hsk it0 it1.
  assert (Next it0 = ((Next (set_test_skipread false it0)).1,
                      set_test_skipread true (Next (set_test_skipread false it0)).2)) as Hfirst.
  { rewrite <- (Next_set_test_skipread true (set_test_skipread false it0)) by done.
    f_equal. symmetry. apply set_test_skipread_id.
    unfold it0. by rewrite BeforeFirst_param. }
  split; [by rewrite Hfirst|]. split; [unfold it1; by rewrite Hfirst|].
  assert (head_ it1 = 0) as Hh by apply Next_head.
  split; [done|]. apply Next_times_skip; [|done].
  unfold it1. destruct (Next_fuel_control (S (Z.to_nat (bsize it0))) it0) as [Hp _].
  unfold Next. rewrite Hp. unfold it0. by rewrite BeforeFirst_param.
Qed.
End StateMachine.

(** ** The last batch of an epoch, for every base iterator *)

Section LastBatch.
Context {real : Type} {Base : Type} `{!IIterator.t (DataInst.t real) Base}.
Local Abbreviation iter := (BatchAdaptIter.t real Base).
Import BatchAdaptIter.

Local Abbreviation bsize it := (BatchParam.batch_size (param_ it)).



Lemma allocated_BeforeFirst (it : iter) : allocated it → allocated (BeforeFirst it).
Proof. unfold BeforeFirst. by case_match. Qed.


Lemma allocated_Init zero junk p kwargs base param0 out0 head0 :
  0 < BatchParam.batch_size p < 2 ^ 32 →
  allocated (Init (Base:=Base) (real:=real) zero junk p kwargs (new base param0 out0 head0)).
Proof.
  intros Hbs. unfold allocated. simpl. split; [done|].
  unfold NewTensor, new_unsigned, resize.
  rewrite !length_replicate, length_fmap, length_seq, length_app, length_take, length_replicate.
  repeat split; lia.
Qed.

Lemma Next_param (it : iter) : param_ (Next it).2 = param_ it.
Proof. apply Next_fuel_control. Qed.

(** Every state a client can reach has its buffers allocated, if the
    configured batch size is positive and fits [index_t]. *)
Lemma reachable_allocated (it : iter) :
  reachable it → 0 < bsize it < 2 ^ 32 → allocated it.
Proof.
  induction 1 as [zero junk p kwargs base param0 out0 head0|it Hr IH|it b it' Hr IH Hnext]; intros Hbs.
  - by apply allocated_Init.
  - apply allocated_BeforeFirst, IH. by rewrite BeforeFirst_param in Hbs.
  - assert (param_ it' = param_ it) as Hp.
    { rewrite <- (Next_param it). by rewrite Hnext. }
    rewrite Hp in Hbs. by destruct (Next_inv it _ _ (IH Hbs) Hnext).
Qed.

(** C9 (as the code has it).  In every state reachable under a valid
    configuration, a successful [Next] leaves an index array, an image
    buffer and a label buffer of exactly [batch_size] slots each and a
    padding count between 0 and [batch_size].  The two blobs of the batch
    are these buffers once a batch has been assembled: when this call
    assembled one (it did not take the [test_skipread] short cut), or
    when the blobs were published before.  A short cut taken before any
    batch was assembled returns a batch whose blobs are still empty. *)
Theorem batch_has_batch_size_slots (it it' : iter) :
  reachable it → 0 < bsize it < 2 ^ 32 →
  Next it = (Return true, it') →
  Z.of_nat (length (DataBatch.inst_index (out_ it'))) = bsize it
  ∧ Z.of_nat (length (data it')) = bsize it
  ∧ Z.of_nat (length (label it')) = bsize it
  ∧ 0 ≤ DataBatch.num_batch_padd (out_ it') ≤ bsize it
  ∧ (reads it ∨ DataBatch.data (out_ it) = [TBlob_data; TBlob_label] →
     batch_blob it' 0 = data it' ∧ batch_blob it' 1 = label it'
     ∧ Z.of_nat (length (batch_blob it' 0)) = bsize it
     ∧ Z.of_nat (length (batch_blob it' 1)) = bsize it).
Proof.
  intros Hr Hbs Hnext. pose proof (reachable_allocated it Hr Hbs) as Ha.
  destruct (Next_inv it _ _ Ha Hnext) as (Ha' & Hpd & Hblobs).
  assert (param_ it' = param_ it) as Hp.
  { rewrite <- (Next_param it). by rewrite Hnext. }
  destruct Ha' as (_ & Hl & Hi & Hd & _). rewrite Hp in Hl, Hi, Hd.
  split; [lia|]. split; [lia|]. split; [lia|]. split; [done|].
  intros Hpub.
  assert (DataBatch.data (out_ it') = [TBlob_data; TBlob_label]) as Hb.
  { destruct (reads_dec it) as [Hrd|[Hsk Hh]]; [by apply Hblobs|].
    destruct Hpub as [[?|?]|Hpub]; [congruence..|].
    unfold Next in Hnext. rewrite Next_fuel_skip in Hnext by done.
    by injection Hnext as <-. }
  unfold batch_blob. rewrite Hb. simpl. repeat split; lia.
Qed.
End LastBatch.

(** ** The last batch of an epoch over a finite data set *)

Section FiniteDataSet.
Context {real : Type}.
Local Abbreviation iter := (BatchAdaptIter.t real (ListIter.t real)).
Import BatchAdaptIter.

Local Abbreviation bsize it := (BatchParam.batch_size (param_ it)).
Local Abbreviation total it := (length (ListIter.dataset (base_ it))).
Local Abbreviation cursor it := (ListIter.cursor (base_ it)).


(** The first [k] instances of the next epoch. *)
Lemma ListIter_restart (s : ListIter.t real) k :
  (k ≤ length (ListIter.dataset s))%nat →
  yields (IIterator.BeforeFirst s) (take k (ListIter.dataset s)) (ListIter.set_cursor k s).
Proof.
  intros Hk. apply (ListIter_yields k (ListIter.set_cursor 0 s)). simpl. lia.
Qed.


End FiniteDataSet.

(** ** The scenarios, evaluated *)

Section Evaluated.
Import BatchAdaptIter Scenario.

Local Ltac evaluate := vm_compute; repeat split; first [reflexivity | lia | discriminate].




(** Ten instances in batches of four with [test_skipread]. *)
Lemma test_skipread_reads_first_then_skips_witness :
  let it1 := after_Next (epoch1 10 4 true true) in
  head_ it1 = 0
  ∧ (Next_times 2 it1).1 = [Return true; Return true]
  ∧ base_ (Next_times 2 it1).2 = base_ it1.
Proof.
  intros it1.
  destruct (test_skipread_reads_first_then_skips (fresh 10 4 true true) 2 ltac:(evaluate))
    as (_ & _ & Hh & Hr & Hb & _).
  split; [exact Hh|]. split; [exact Hr|exact Hb].
Defined.

(** The first call after [BeforeFirst] reads instances 0 to 3 from the
    base iterator and overwrites the index array; the second call reads
    nothing and changes nothing. *)
Lemma test_skipread_first_call_reads_counterexample :
  let it0 := epoch1 10 4 true true in
  let it1 := after_Next it0 in
  let it2 := after_Next it1 in
  BatchParam.test_skipread (param_ it0) = true
  ∧ (Next it0).1 = Return true
  ∧ ListIter.cursor (base_ it0) = 0%nat ∧ ListIter.cursor (base_ it1) = 4%nat
  ∧ DataBatch.inst_index (out_ it0) = [0; 0; 0; 0]
  ∧ DataBatch.inst_index (out_ it1) = [0; 1; 2; 3]
  ∧ base_ it1 ≠ base_ it0
  ∧ out_ it1 ≠ out_ it0
  ∧ (Next it1).1 = Return true
  ∧ base_ it2 = base_ it1
  ∧ DataBatch.inst_index (out_ it2) = [0; 1; 2; 3].
Proof. evaluate. Qed.




(** The same epoch one call later: the base iterator has nothing left
    and [Next] answers [false]. *)
Lemma Next_without_fill_keeps_all_but_padding_witness :
  let it := after_Next (after_Next (after_Next (epoch1 10 4 false false))) in
  buffers_kept it (after_Next it) ∧ DataBatch.num_batch_padd (out_ (after_Next it)) = 0.
Proof.
  intros it.
  destruct (Next_without_fill_keeps_all_but_padding it (Return false) (after_Next it))
    as (Hk & _ & _ & Hpd & _); [evaluate| evaluate | left; reflexivity |].
  split; [exact Hk|exact Hpd].
Defined.

(** ... and the padding count 2 of the batch published before is gone. *)
Lemma failed_Next_resets_padding_counterexample :
  let it := after_Next (after_Next (after_Next (epoch1 10 4 false false))) in
  (Next it).1 = Return false
  ∧ DataBatch.num_batch_padd (out_ it) = 2
  ∧ DataBatch.num_batch_padd (out_ (Next it).2) = 0
  ∧ out_ (Next it).2 ≠ out_ it.
Proof. evaluate. Qed.

(** Three instances in batches of six with [round_batch]: the first
    batch borrows all three instances again, so after [BeforeFirst] the
    base iterator has nothing left; [Next] answers [false], and [Value]
    returns the batch although no call of [Next] has succeeded since
    [BeforeFirst]. *)
Lemma Value_after_failed_Next_counterexample :
  let it := BeforeFirst (after_Next (epoch1 3 6 true false)) in
  Value it = CheckFailed "must call Next to get value"
  ∧ (Next it).1 = Return false
  ∧ Value (Next it).2 = Return (out_ (Next it).2)
  ∧ Value (Next it).2 ≠ CheckFailed "must call Next to get value".
Proof. evaluate. Qed.

(** Ten instances in batches of four with [round_batch], after the
    wrapping third batch. *)
Lemma Next_blocked_while_overflow_pending_witness :
  let it := after_Next (after_Next (after_Next (epoch1 10 4 true false))) in
  (Next_times 3 it).1 = [Return false; Return false; Return false]
  ∧ base_ (Next_times 3 it).2 = base_ it.
Proof.
  intros it.
  destruct (Next_blocked_while_overflow_pending it 3) as (Hr & Hb & _); [evaluate..|].
  split; [exact Hr|exact Hb].
Defined.

(** Three instances in batches of four with [round_batch] and
    [test_skipread]: the first batch wraps and leaves an overflow
    pending, yet the next call returns [true]. *)
Lemma Next_succeeds_with_overflow_pending_counterexample :
  let it := after_Next (epoch1 3 4 true true) in
  BatchParam.round_batch (param_ it) = true
  ∧ num_overflow_ it = 1
  ∧ (Next it).1 = Return true
  ∧ (Next it).1 ≠ Return false.
Proof. evaluate. Qed.

(** Ten instances in batches of four: the first batch. *)
Lemma batch_has_batch_size_slots_witness :
  let it := epoch1 10 4 true false in
  let it' := after_Next it in
  Z.of_nat (length (DataBatch.inst_index (out_ it'))) = BatchParam.batch_size (param_ it)
  ∧ 0 ≤ DataBatch.num_batch_padd (out_ it') ≤ BatchParam.batch_size (param_ it)
  ∧ Z.of_nat (length (batch_blob it' 0)) = BatchParam.batch_size (param_ it)
  ∧ Z.of_nat (length (batch_blob it' 1)) = BatchParam.batch_size (param_ it).
Proof.
  intros it it'.
  assert (reachable it) as Hr.
  { apply reachable_BeforeFirst.
    exact (reachable_Init 0 (λ _, 0) (config 4 true false) [] (source 10)
             (config 0 false false) (DataBatch.mk 0 [] [] 0) 1). }
  destruct (batch_has_batch_size_slots it it' Hr ltac:(evaluate) ltac:(evaluate))
    as (Hi & _ & _ & Hpd & Hblobs).
  destruct Hblobs as (_ & _ & H0 & H1); [left; evaluate|].
  split; [exact Hi|]. split; [exact Hpd|]. split; [exact H0|exact H1].
Defined.

(** No instance at all, with [test_skipread]: the first call answers
    [false], the second takes the short cut and returns [true] with the
    blobs of the batch still empty. *)
Lemma skipped_first_batch_has_empty_blobs_counterexample :
  let it := after_Next (epoch1 0 4 true true) in
  0 < BatchParam.batch_size (param_ it) < 2 ^ 32
  ∧ (Next it).1 = Return true
  ∧ DataBatch.data (out_ (Next it).2) = [TBlob_empty; TBlob_empty]
  ∧ batch_blob (Next it).2 0 = []
  ∧ batch_blob (Next it).2 1 = []
  ∧ Z.of_nat (length (batch_blob (Next it).2 0)) ≠ BatchParam.batch_size (param_ it).
Proof. evaluate. Qed.

(** Ten instances in batches of four without [round_batch], after the
    padded third batch: the fourth call answers [false]. *)
Lemma Value_after_any_Next_witness :
  let it := after_Next (after_Next (after_Next (epoch1 10 4 false false))) in
  (Next it).1 = Return false
  ∧ Value (Next it).2 = Return (out_ (Next it).2)
  ∧ DataBatch.num_batch_padd (out_ (Next it).2) = 0.
Proof.
  intros it.
  destruct (Value_after_any_Next it ltac:(evaluate)) as (_ & _ & Hv & Hfalse & _ & Hempty).
  assert ((Next it).1 = Return false) as Hr.
  { apply Hempty; evaluate. }
  split; [exact Hr|]. split; [exact Hv|]. by destruct (Hfalse Hr).
Defined.
End Evaluated.

(** ** The buffers after a fill *)


Section Overwrite.
Context {real : Type} {Base : Type} `{!IIterator.t (DataInst.t real) Base}.
Local Abbreviation iter := (BatchAdaptIter.t real Base).
Import BatchAdaptIter.


End Overwrite.

(** ** Further properties of one call, for every base iterator *)

Section OneCall.
Context {real : Type} {Base : Type} `{!IIterator.t (DataInst.t real) Base}.
Local Abbreviation iter := (BatchAdaptIter.t real Base).
Import BatchAdaptIter.

Local Abbreviation bsize it := (BatchParam.batch_size (param_ it)).
Local Abbreviation padd it := (DataBatch.num_batch_padd (out_ it)).



(** The three ways a call that read from the base iterator can return
    [true]: a whole batch; a short batch left with stale slots; a short
    batch refilled after a restart, with one overflow per refilled slot. *)
Lemma Next_read_cases (it : iter) it' :
  allocated it → reads it → Next it = (Return true, it') →
  num_overflow_ it = 0
  ∧ ((num_overflow_ it' = 0 ∧ padd it' = 0)
     ∨ (BatchParam.round_batch (param_ it) = false
        ∧ num_overflow_ it' = 0 ∧ 0 < padd it' < bsize it)
     ∨ (BatchParam.round_batch (param_ it) = true
        ∧ 0 < padd it' < bsize it ∧ num_overflow_ it' = to_int (padd it'))).
Proof.
  intros Ha Hrd Hnext. pose proof Ha as (Hbs & _).
  destruct (decide (num_overflow_ it = 0)) as [Hv|Hv].
  2:{ unfold Next in Hnext. by rewrite Next_fuel_pending in Hnext by done. }
  split; [done|].
  unfold Next in Hnext. rewrite Next_fuel_reading in Hnext by done.
  pose proof (while_Next_inv (S (Z.to_nat (bsize it))) (entered it) 0) as Hw.
  destruct (while_Next _ (entered it) 0) as [r1 it1|it1 top].
  - destruct Hw as (_ & it0 & -> & Hst & Hv0 & _); [by apply allocated_sized|simpl; lia..|].
    injection Hnext as _ <-. left.
    destruct Hst as (_ & _ & _ & Hpd & _). simpl in *. split; congruence.
  - destruct Hw as (Htop & Hst & Hv1 & _ & _); [by apply allocated_sized|simpl; lia..|].
    pose proof (steady_allocated _ _ Hst Ha) as Ha1.
    pose proof Hst as (Hp1 & _). simpl in Htop, Hp1, Hv1.
    destruct (Z.eqb_spec top 0) as [Htop0|Htop0]; cbn [negb] in Hnext; [done|].
    rewrite Hp1 in Hnext.
    destruct (BatchParam.round_batch (param_ it)) eqn:Hrb.
    2:{ injection Hnext as <-. right. left. simpl. rewrite to_index_t_small by lia.
        split; [done|]. split; [congruence|lia]. }
    pose proof (for_refill_inv (S (Z.to_nat (bsize it)))
                  (set_base (IIterator.BeforeFirst (base_ it1)) (set_num_overflow 0 it1)) top 0) as Hf.
    destruct (for_refill _ _ top) as [r2 it2|it2 top2].
    + destruct Hf as (-> & _);
        [apply (allocated_sized it1 Ha1)|simpl; rewrite Hp1; lia|simpl; rewrite Hp1; lia
        |reflexivity|simpl; rewrite Hp1; lia|]. done.
    + destruct Hf as (_ & _ & Hv2 & _);
        [apply (allocated_sized it1 Ha1)|simpl; rewrite Hp1; lia|simpl; rewrite Hp1; lia
        |reflexivity|simpl; rewrite Hp1; lia|].
      injection Hnext as <-. right. right. simpl in Hv2 |- *. rewrite Hp1 in Hv2.
      rewrite Hv2, to_index_t_to_int, to_index_t_small by lia.
      split; [done|]. split; [lia|]. f_equal; lia.
Qed.

(** The overflow counter after a call that came back. *)
Lemma Next_overflow (it : iter) b it' :
  allocated it → Next it = (Return b, it') →
  (0 ≤ to_index_t (num_overflow_ it) < bsize it → 0 ≤ to_index_t (num_overflow_ it') < bsize it)
  ∧ (BatchParam.round_batch (param_ it) = false → num_overflow_ it = 0 → num_overflow_ it' = 0).
Proof.
  intros Ha Hnext. pose proof Ha as (Hbs & _).
  destruct (reads_dec it) as [Hrd|[Hsk Hh]].
  2:{ unfold Next in Hnext. rewrite Next_fuel_skip in Hnext by done.
      by injection Hnext as _ <-. }
  destruct b.
  - destruct (Next_read_cases it it' Ha Hrd Hnext) as (Hv & [[Hv' _]|[(_ & Hv' & _)|(Hrb & Hpd & Hv')]]).
    + rewrite Hv'. split; [|done]. intros _. rewrite to_index_t_small; lia.
    + rewrite Hv'. split; [|done]. intros _. rewrite to_index_t_small; lia.
    + split; [|congruence]. intros _.
      rewrite Hv', to_index_t_to_int, to_index_t_small; lia.
  - destruct (Next_inv it _ _ Ha Hnext) as (_ & _ & _ & _ & _ & ->). done.
Qed.

Lemma BeforeFirst_overflow (it : iter) :
  num_overflow_ (BeforeFirst it) = num_overflow_ it ∨ num_overflow_ (BeforeFirst it) = 0.
Proof. unfold BeforeFirst. case_match; [by left|by right]. Qed.

(** What every reachable state keeps, under a valid configuration. *)
Lemma reachable_overflow (it : iter) :
  reachable it → 0 < bsize it < 2 ^ 32 →
  0 ≤ to_index_t (num_overflow_ it) < bsize it
  ∧ (BatchParam.round_batch (param_ it) = false → num_overflow_ it = 0).
Proof.
  induction 1 as [zero junk p kwargs base param0 out0 head0|it Hr IH|it b it' Hr IH Hnext]; intros Hbs.
  - simpl. split; [|done]. rewrite to_index_t_small; simpl in Hbs; lia.
  - rewrite BeforeFirst_param in Hbs |- *. destruct (IH Hbs) as [Hlt Hoff].
    destruct (BeforeFirst_overflow it) as [-> | ->]; [done|].
    split; [|done]. rewrite to_index_t_small; lia.
  - assert (param_ it' = param_ it) as Hp.
    { rewrite <- (Next_param it). by rewrite Hnext. }
    rewrite Hp in Hbs |- *. destruct (IH Hbs) as [Hlt Hoff].
    destruct (Next_overflow it b it' (reachable_allocated it Hr Hbs) Hnext) as [H1 H2].
    split; [by apply H1|]. intros Hrb. by apply H2, Hoff.
Qed.

(** X2.  In every state reachable under a valid configuration, a
    successful [Next] leaves a padding count strictly below [batch_size]
    (a published batch has at least one slot that is not padding) and an
    overflow counter below [batch_size]; when [round_batch] is on and the
    call read from the base iterator the two are the same number. *)
Theorem padding_below_batch_size (it it' : iter) :
  reachable it → 0 < bsize it < 2 ^ 32 →
  Next it = (Return true, it') →
  0 ≤ padd it' < bsize it
  ∧ 0 ≤ to_index_t (num_overflow_ it') < bsize it
  ∧ (BatchParam.round_batch (param_ it) = true → reads it →
     padd it' = to_index_t (num_overflow_ it')).
Proof.
  intros Hr Hbs Hnext. pose proof (reachable_allocated it Hr Hbs) as Ha.
  destruct (reachable_overflow it Hr Hbs) as [Hlt _].
  destruct (Next_overflow it true it' Ha Hnext) as [Hov _].
  split; [|split; [by apply Hov|]].
  - destruct (reads_dec it) as [Hrd|[Hsk Hh]].
    + destruct (Next_read_cases it it' Ha Hrd Hnext) as (_ & [[_ ->]|[(_ & _ & ?)|(_ & ? & _)]]); lia.
    + unfold Next in Hnext. rewrite Next_fuel_skip in Hnext by done.
      injection Hnext as <-. simpl. lia.
  - intros Hrb Hrd.
    destruct (Next_read_cases it it' Ha Hrd Hnext) as (_ & [[-> ->]|[(? & _)|(_ & ? & ->)]]).
    + done.
    + congruence.
    + rewrite to_index_t_to_int, to_index_t_small; lia.
Qed.

(** A call that read an instance from the base iterator does not answer
    [false]. *)
Lemma Next_not_false_after_read (it : iter) s1 :
  allocated it → reads it → num_overflow_ it = 0 →
  IIterator.Next (base_ it) = (true, s1) → (Next it).1 ≠ Return false.
Proof.
  intros Ha Hrd Hv Hx Hfalse. pose proof Ha as (Hbs & _).
  pose proof (yields_cons _ _ [] _ Hx (yields_nil s1)) as Hy.
  destruct (Next it) as [r it'] eqn:Hnext. simpl in Hfalse. subst r.
  unfold Next in Hnext. rewrite Next_fuel_reading in Hnext by done.
  destruct (while_Next_prefix _ _ _ Hy (entered it) 0 (S (Z.to_nat (bsize it))))
    as [_ Htop]; [done|by apply allocated_sized|simpl; lia..|].
  pose proof (while_Next_inv (S (Z.to_nat (bsize it))) (entered it) 0) as Hw.
  destruct (while_Next _ (entered it) 0) as [r1 it1|it1 top].
  - destruct Hw as (-> & _); [by apply allocated_sized|simpl; lia..|]. done.
  - destruct Hw as (Htop1 & Hst & _); [by apply allocated_sized|simpl; lia..|].
    pose proof (steady_allocated _ _ Hst Ha) as Ha1.
    pose proof Hst as (Hp1 & _). simpl in Htop, Htop1, Hp1.
    destruct (Z.eqb_spec top 0) as [Htop0|Htop0]; cbn [negb] in Hnext; [lia|].
    destruct (BatchParam.round_batch (param_ it1)); [|done].
    pose proof (for_refill_inv (S (Z.to_nat (bsize it)))
                  (set_base (IIterator.BeforeFirst (base_ it1)) (set_num_overflow 0 it1)) top 0) as Hf.
    destruct (for_refill _ _ top) as [r2 it2|it2 top2]; [|done].
    destruct Hf as (-> & _);
      [apply (allocated_sized it1 Ha1)|simpl; rewrite Hp1; lia|simpl; rewrite Hp1; lia
      |reflexivity|simpl; rewrite Hp1; lia|]. done.
Qed.

(** X3.  With [round_batch] off no overflow is ever pending: in every
    reachable state [num_overflow_] is 0, [BeforeFirst] restarts the base
    iterator, and a call of [Next] past the [test_skipread] short cut
    answers [false] only when the base iterator's own [Next] answered
    [false] at the first request. *)
Theorem no_overflow_without_round_batch (it : iter) :
  reachable it → 0 < bsize it < 2 ^ 32 →
  BatchParam.round_batch (param_ it) = false →
  num_overflow_ it = 0
  ∧ base_ (BeforeFirst it) = IIterator.BeforeFirst (base_ it)
  ∧ (reads it → (Next it).1 = Return false → (IIterator.Next (base_ it)).1 = false).
Proof.
  intros Hr Hbs Hrb. pose proof (reachable_allocated it Hr Hbs) as Ha.
  destruct (reachable_overflow it Hr Hbs) as [_ Hoff]. specialize (Hoff Hrb).
  split; [done|]. split; [unfold BeforeFirst; by rewrite Hrb|].
  intros Hrd Hfalse. destruct (IIterator.Next (base_ it)) as [[] s1] eqn:Hx; [|done].
  by destruct (Next_not_false_after_read it s1 Ha Hrd Hoff Hx).
Qed.

(** X4.  Two calls of [BeforeFirst] in a row after a wrap: the first
    clears the pending overflow and leaves the base iterator past the
    borrowed instances, the second finds no overflow pending and restarts
    it; the batch that follows is read from the beginning, borrowed
    instances included. *)
Theorem BeforeFirst_twice_restarts (it : iter) ds s1 it' :
  allocated it →
  BatchParam.round_batch (param_ it) = true → num_overflow_ it ≠ 0 →
  yields (IIterator.BeforeFirst (base_ it)) ds s1 → Z.of_nat (length ds) ≤ bsize it →
  Next (BeforeFirst (BeforeFirst it)) = (Return true, it') →
  base_ (BeforeFirst it) = base_ it
  ∧ base_ (BeforeFirst (BeforeFirst it)) = IIterator.BeforeFirst (base_ it)
  ∧ num_overflow_ (BeforeFirst (BeforeFirst it)) = 0
  ∧ ∀ k d, ds !! k = Some d → slot_holds it' k d.
Proof.
  intros Ha Hrb Hv Hy Hlen Hnext.
  assert (BeforeFirst it = set_head 1 (set_num_overflow 0 it)) as H1.
  { unfold BeforeFirst. rewrite Hrb. by destruct (Z.eqb_spec (num_overflow_ it) 0). }
  assert (BeforeFirst (BeforeFirst it)
          = set_head 1 (set_base (IIterator.BeforeFirst (base_ it)) (set_num_overflow 0 it))) as H2.
  { rewrite H1. unfold BeforeFirst. simpl. by rewrite orb_true_r. }
  rewrite H2 in Hnext |- *. rewrite H1.
  split; [done|]. split; [done|]. split; [done|].
  apply (Next_prefix (set_head 1 (set_base (IIterator.BeforeFirst (base_ it))
                                    (set_num_overflow 0 it))) ds s1 it'); try done.
  by right.
Qed.
End OneCall.

(** ** Allocation *)

Section Allocation.
Context {real : Type} {Base : Type} `{!IIterator.t (DataInst.t real) Base}.
Local Abbreviation iter := (BatchAdaptIter.t real Base).
Import BatchAdaptIter.

Local Abbreviation bsize it := (BatchParam.batch_size (param_ it)).





End Allocation.

(** ** Whole batches over a finite data set *)

Section EpochSteps.
Context {real : Type}.
Local Abbreviation iter := (BatchAdaptIter.t real (ListIter.t real)).
Import BatchAdaptIter.

Local Abbreviation bsize it := (BatchParam.batch_size (param_ it)).
Local Abbreviation rows it := (Z.to_nat (BatchParam.batch_size (param_ it))).
Local Abbreviation total it := (length (ListIter.dataset (base_ it))).
Local Abbreviation cursor it := (ListIter.cursor (base_ it)).
Local Abbreviation padd it := (DataBatch.num_batch_padd (out_ it)).




End EpochSteps.

(** ** Short batches, as the consumer reads them *)

Section ShortBatches.
Context {real : Type} {Base : Type} `{!IIterator.t (DataInst.t real) Base}.
Local Abbreviation iter := (BatchAdaptIter.t real Base).
Import BatchAdaptIter.

Local Abbreviation bsize it := (BatchParam.batch_size (param_ it)).
Local Abbreviation padd it := (DataBatch.num_batch_padd (out_ it)).





End ShortBatches.

(** ** A whole pass over a finite data set *)

Section Epoch.
Context {real : Type}.
Local Abbreviation iter := (BatchAdaptIter.t real (ListIter.t real)).
Import BatchAdaptIter.

Local Abbreviation bsize it := (BatchParam.batch_size (param_ it)).
Local Abbreviation rows it := (Z.to_nat (BatchParam.batch_size (param_ it))).
Local Abbreviation total it := (length (ListIter.dataset (base_ it))).
Local Abbreviation cursor it := (ListIter.cursor (base_ it)).
Local Abbreviation padd it := (DataBatch.num_batch_padd (out_ it)).
Local Abbreviation samples it := (ListIter.dataset (base_ it)).




End Epoch.

(** ** The whole-batch and whole-pass properties on the worked scenarios *)

Section EvaluatedPasses.
Import BatchAdaptIter Scenario.

Local Ltac evaluate := vm_compute; repeat split; first [reflexivity | lia | discriminate].
Local Ltac count := vm_compute; repeat split; repeat constructor.

Lemma reachable_epoch1 n bs round skip : reachable (epoch1 n bs round skip).
Proof.
  apply reachable_BeforeFirst.
  exact (reachable_Init 0 (λ _, 0) (config bs round skip) [] (source n)
           (config 0 false false) (DataBatch.mk 0 [] [] 0) 1).
Qed.


(** Ten instances in batches of four with [round_batch]: the third
    batch carries two borrowed instances. *)
Lemma padding_below_batch_size_witness :
  let it := after_Next (after_Next (epoch1 10 4 true false)) in
  let it' := after_Next it in
  0 ≤ DataBatch.num_batch_padd (out_ it') < BatchParam.batch_size (param_ it)
  ∧ DataBatch.num_batch_padd (out_ it') = to_index_t (num_overflow_ it').
Proof.
  intros it it'.
  assert (reachable (after_Next (epoch1 10 4 true false))) as Hr1.
  { apply (reachable_Next (epoch1 10 4 true false) true); [apply reachable_epoch1|evaluate]. }
  assert (reachable it) as Hr.
  { apply (reachable_Next (after_Next (epoch1 10 4 true false)) true); [exact Hr1|evaluate]. }
  destruct (padding_below_batch_size it it' Hr ltac:(evaluate) ltac:(evaluate))
    as (Hpd & _ & Heq).
  split; [exact Hpd|]. apply Heq; [evaluate|left; evaluate].
Defined.

(** Ten instances in batches of four without [round_batch], after the
    padded third batch. *)
Lemma no_overflow_without_round_batch_witness :
  let it := after_Next (after_Next (after_Next (epoch1 10 4 false false))) in
  num_overflow_ it = 0
  ∧ base_ (BeforeFirst it) = IIterator.BeforeFirst (base_ it)
  ∧ (IIterator.Next (base_ it)).1 = false.
Proof.
  intros it.
  assert (reachable (after_Next (epoch1 10 4 false false))) as Hr1.
  { apply (reachable_Next (epoch1 10 4 false false) true); [apply reachable_epoch1|evaluate]. }
  assert (reachable (after_Next (after_Next (epoch1 10 4 false false)))) as Hr2.
  { apply (reachable_Next (after_Next (epoch1 10 4 false false)) true); [exact Hr1|evaluate]. }
  assert (reachable it) as Hr.
  { apply (reachable_Next (after_Next (after_Next (epoch1 10 4 false false))) true);
      [exact Hr2|evaluate]. }
  destruct (no_overflow_without_round_batch it Hr ltac:(evaluate) ltac:(evaluate))
    as (Hov & Hb & Hend).
  split; [exact Hov|]. split; [exact Hb|]. apply Hend; [left; evaluate|evaluate].
Defined.

(** Ten instances in batches of four with [round_batch], after the
    wrapped third batch: a second [BeforeFirst] starts the pass at
    instance 0. *)
Lemma BeforeFirst_twice_restarts_witness :
  let it := after_Next (after_Next (after_Next (epoch1 10 4 true false))) in
  let it' := after_Next (BeforeFirst (BeforeFirst it)) in
  ListIter.cursor (base_ (BeforeFirst it)) = 2%nat
  ∧ ListIter.cursor (base_ (BeforeFirst (BeforeFirst it))) = 0%nat
  ∧ slot_holds it' 0 (inst 0) ∧ slot_holds it' 3 (inst 3).
Proof.
  intros it it'.
  pose proof (ListIter_restart (base_ it) 4 ltac:(count)) as Hy.
  destruct (BeforeFirst_twice_restarts it _ _ it' ltac:(evaluate) ltac:(evaluate)
              ltac:(evaluate) Hy ltac:(evaluate) ltac:(evaluate))
    as (Hb1 & Hb2 & _ & Hslots).
  split; [exact (f_equal ListIter.cursor Hb1)|].
  split; [exact (f_equal ListIter.cursor Hb2)|].
  split; [apply (Hslots 0%nat); evaluate|apply (Hslots 3%nat); evaluate].
Defined.





End EvaluatedPasses.
